(** * A shallow embedding of mbedcrypto's symmetric cipher core (src/src/cipher.cpp)

    The wrapper drives mbedtls's generic cipher layer.  mbedtls is an
    external collaborator: its context is modelled as a record of an
    algorithm description ([cipher_info]), a configuration part (key
    schedule, operation, padding functions) that only the setters change,
    and a running part (current IV, buffered bytes, mode state) that the
    data-processing calls change.  The primitive functions themselves are
    fields of [mbedtls_lib] and stay abstract; the theorems quantify over
    every such library, with the documented contract of the primitive as
    explicit hypotheses where a property depends on it.

    Every mbedtls call that produces output returns the bytes it wrote; the
    value it stores through its [size_t* olen] out-parameter is the length
    of those bytes (mbedtls assigns [*olen] on every path, [0] on an early
    error). *)

From Stdlib Require Import String.
From Stdlib Require Import ZArith List Bool Lia.
Import ListNotations.

(** ** mbedtls constants and enums (mbedtls/cipher.h) *)

Definition MBEDTLS_ERR_CIPHER_FEATURE_UNAVAILABLE : Z := (-0x6080)%Z.
Definition MBEDTLS_ERR_CIPHER_BAD_INPUT_DATA : Z := (-0x6100)%Z.
Definition MBEDTLS_ERR_CIPHER_FULL_BLOCK_EXPECTED : Z := (-0x6280)%Z.
Definition MBEDTLS_ERR_CIPHER_AUTH_FAILED : Z := (-0x6300)%Z.

Inductive mbedtls_cipher_mode_t :=
| MBEDTLS_MODE_NONE | MBEDTLS_MODE_ECB | MBEDTLS_MODE_CBC | MBEDTLS_MODE_CFB
| MBEDTLS_MODE_OFB | MBEDTLS_MODE_CTR | MBEDTLS_MODE_GCM | MBEDTLS_MODE_STREAM
| MBEDTLS_MODE_CCM | MBEDTLS_MODE_XTS.

Inductive mbedtls_cipher_padding_t :=
| MBEDTLS_PADDING_PKCS7 | MBEDTLS_PADDING_ONE_AND_ZEROS
| MBEDTLS_PADDING_ZEROS_AND_LEN | MBEDTLS_PADDING_ZEROS | MBEDTLS_PADDING_NONE.

Inductive mbedtls_operation_t := MBEDTLS_DECRYPT | MBEDTLS_ENCRYPT.

(** [mbedtls_cipher_info_t]: the fields [mode], [key_bitlen], [iv_size]
    and [block_size] the wrapper reads. *)
Record mbedtls_cipher_info_t := {
  info_mode : mbedtls_cipher_mode_t;
  info_key_bitlen : nat;
  info_iv_size : nat;
  info_block_size : nat
}.

(** ** mbedcrypto enums *)

(** Modelled from the spec: the block-mode category [cipher_bm] of
    mbedcrypto's types header (not under src/), with the variants the spec
    lists. *)
Module cipher_bm.
Inductive t := none | ecb | cbc | cfb | ofb | ctr | gcm | ccm | xts | stream.
End cipher_bm.

(** Modelled from the spec: the padding enum [padding_t] of mbedcrypto's
    types header (not under src/). *)
Module padding_t.
Inductive t := none | pkcs7 | one_and_zeros | zeros_and_len | zeros.
End padding_t.

(** [cipher::mode] *)
Inductive mode := encrypt_mode | decrypt_mode.

(** Modelled from the spec: [from_native] of conversions.hpp (not under
    src/), the one-to-one naming of mbedtls's mode as a block-mode category. *)
Definition from_native (m : mbedtls_cipher_mode_t) : cipher_bm.t :=
  match m with
  | MBEDTLS_MODE_NONE => cipher_bm.none
  | MBEDTLS_MODE_ECB => cipher_bm.ecb
  | MBEDTLS_MODE_CBC => cipher_bm.cbc
  | MBEDTLS_MODE_CFB => cipher_bm.cfb
  | MBEDTLS_MODE_OFB => cipher_bm.ofb
  | MBEDTLS_MODE_CTR => cipher_bm.ctr
  | MBEDTLS_MODE_GCM => cipher_bm.gcm
  | MBEDTLS_MODE_STREAM => cipher_bm.stream
  | MBEDTLS_MODE_CCM => cipher_bm.ccm
  | MBEDTLS_MODE_XTS => cipher_bm.xts
  end.

(** Modelled from the spec: [to_native(padding_t)] of conversions.hpp (not
    under src/), one mbedtls padding per mbedcrypto padding. *)
Definition to_native (p : padding_t.t) : mbedtls_cipher_padding_t :=
  match p with
  | padding_t.none => MBEDTLS_PADDING_NONE
  | padding_t.pkcs7 => MBEDTLS_PADDING_PKCS7
  | padding_t.one_and_zeros => MBEDTLS_PADDING_ONE_AND_ZEROS
  | padding_t.zeros_and_len => MBEDTLS_PADDING_ZEROS_AND_LEN
  | padding_t.zeros => MBEDTLS_PADDING_ZEROS
  end.

(** [block_mode() == cipher_bm::ecb] *)
Definition is_ecb (m : cipher_bm.t) : bool :=
  match m with cipher_bm.ecb => true | _ => false end.

(** ** Byte buffers ([buffer_t] is a byte vector) *)

Definition buffer_t := list Byte.byte.

(** [buffer_t output(n, '\0')] *)
Definition zeros (n : nat) : buffer_t := repeat Byte.x00 n.

(** The primitive writes [w] at [buf + off]. *)
Definition write_at (buf : buffer_t) (off : nat) (w : buffer_t) : buffer_t :=
  firstn off buf ++ w ++ skipn (off + length w) buf.

(** [std::vector::resize(n)]: truncate, or extend with zero bytes. *)
Definition resize (n : nat) (buf : buffer_t) : buffer_t :=
  firstn n buf ++ zeros (n - length buf).

(** ** Exceptions and the state/exception monad *)

(** [mbedcrypto::exception{code, tag}] and the dedicated exceptions. *)
Inductive exception :=
| mbed_exception (code : Z) (tag : string)
| unknown_cipher
| usage_error (msg : string)
| aead_error.

Inductive outcome (A : Type) := Ok (a : A) | Throw (e : exception).
Arguments Ok {A} a.
Arguments Throw {A} e.

(** A computation on a mutable object of type [S] that may throw; the
    object keeps the changes made before a throw. *)
Definition stM (S A : Type) := S -> outcome A * S.

Definition ret {S A} (a : A) : stM S A := fun s => (Ok a, s).
Definition throw {S A} (e : exception) : stM S A := fun s => (Throw e, s).
Definition bind {S A B} (m : stM S A) (k : A -> stM S B) : stM S B :=
  fun s => match m s with
           | (Ok a, s') => k a s'
           | (Throw e, s') => (Throw e, s')
           end.
Definition get {S} : stM S S := fun s => (Ok s, s).
Definition lift {S A} (o : outcome A) : stM S A := fun s => (o, s).

Notation "x <- c1 ;; c2" := (bind c1 (fun x => c2))
  (at level 61, c1 at next level, right associativity).
Notation "' pat <- c1 ;; c2" := (bind c1 (fun x => match x with pat => c2 end))
  (at level 61, pat pattern, c1 at next level, right associativity).
Notation "e1 ;; e2" := (bind e1 (fun _ => e2))
  (at level 61, right associativity).

(** ** The mbedtls generic cipher layer, abstract *)

Record mbedtls_lib := {
  cipher_t : Type;
  config : Type;
  running : Type;
  (** [mbedtls_cipher_info_from_type(to_native(type))] *)
  cipher_info_from_type : cipher_t -> option mbedtls_cipher_info_t;
  init_config : config;
  init_running : running;
  setup_fn : mbedtls_cipher_info_t -> Z * config * running;
  set_padding_fn : option mbedtls_cipher_info_t -> config ->
                   mbedtls_cipher_padding_t -> Z * config;
  setkey_fn : option mbedtls_cipher_info_t -> config -> buffer_t -> nat ->
              mbedtls_operation_t -> Z * config;
  set_iv_fn : option mbedtls_cipher_info_t -> config -> running -> buffer_t ->
              Z * running;
  reset_fn : option mbedtls_cipher_info_t -> config -> running -> Z * running;
  update_fn : option mbedtls_cipher_info_t -> config -> running -> buffer_t ->
              Z * running * buffer_t;
  finish_fn : option mbedtls_cipher_info_t -> config -> running ->
              Z * running * buffer_t;
  (** [mbedtls_cipher_crypt(ctx, iv, iv_len, input, ilen, output, olen)] *)
  crypt_fn : option mbedtls_cipher_info_t -> config -> running -> buffer_t ->
             buffer_t -> Z * running * buffer_t;
  (** [mbedtls_cipher_auth_encrypt(ctx, iv, ad, input, output, tag, tag_len)]:
      code, running part, ciphertext written, tag written *)
  auth_encrypt_fn : option mbedtls_cipher_info_t -> config -> running ->
                    buffer_t -> buffer_t -> buffer_t -> nat ->
                    Z * running * buffer_t * buffer_t;
  (** [mbedtls_cipher_auth_decrypt(ctx, iv, ad, input, output, tag)] *)
  auth_decrypt_fn : option mbedtls_cipher_info_t -> config -> running ->
                    buffer_t -> buffer_t -> buffer_t -> buffer_t ->
                    Z * running * buffer_t;
  (** Not mbedtls but the C++ heap under it: the bytes a view into a freed
      block shows, the block having held the given bytes (the allocator
      reuses a freed block for its own bookkeeping). *)
  freed_read : buffer_t -> buffer_t
}.

(** ** The mbedtls context and its calls *)

Section mbedtls_context.
Context {L : mbedtls_lib}.

(** [mbedtls_cipher_context_t] *)
Record mbedtls_cipher_context_t := {
  cipher_info : option mbedtls_cipher_info_t;
  cfg : config L;
  run : running L
}.

Definition with_cfg (c : mbedtls_cipher_context_t) (x : config L) :=
  {| cipher_info := cipher_info c; cfg := x; run := run c |}.
Definition with_run (c : mbedtls_cipher_context_t) (x : running L) :=
  {| cipher_info := cipher_info c; cfg := cfg c; run := x |}.

Definition mbedtls_cipher_init : mbedtls_cipher_context_t :=
  {| cipher_info := None; cfg := init_config L; run := init_running L |}.

(** [mbedtls_cipher_setup] clears the context, then binds the algorithm. *)
Definition mbedtls_cipher_setup (c : mbedtls_cipher_context_t)
    (info : mbedtls_cipher_info_t) : Z * mbedtls_cipher_context_t :=
  let '(r, x, rn) := setup_fn L info in
  if Z.eqb r 0
  then (0%Z, {| cipher_info := Some info; cfg := x; run := rn |})
  else (r, mbedtls_cipher_init).

Definition mbedtls_cipher_set_padding_mode (c : mbedtls_cipher_context_t)
    (p : mbedtls_cipher_padding_t) : Z * mbedtls_cipher_context_t :=
  let '(r, x) := set_padding_fn L (cipher_info c) (cfg c) p in (r, with_cfg c x).

Definition mbedtls_cipher_setkey (c : mbedtls_cipher_context_t) (key : buffer_t)
    (bitlen : nat) (op : mbedtls_operation_t) : Z * mbedtls_cipher_context_t :=
  let '(r, x) := setkey_fn L (cipher_info c) (cfg c) key bitlen op in
  (r, with_cfg c x).

Definition mbedtls_cipher_set_iv (c : mbedtls_cipher_context_t) (iv : buffer_t)
    : Z * mbedtls_cipher_context_t :=
  let '(r, x) := set_iv_fn L (cipher_info c) (cfg c) (run c) iv in
  (r, with_run c x).

Definition mbedtls_cipher_reset (c : mbedtls_cipher_context_t)
    : Z * mbedtls_cipher_context_t :=
  let '(r, x) := reset_fn L (cipher_info c) (cfg c) (run c) in (r, with_run c x).

Definition mbedtls_cipher_update (c : mbedtls_cipher_context_t) (input : buffer_t)
    : Z * mbedtls_cipher_context_t * buffer_t :=
  let '(r, x, w) := update_fn L (cipher_info c) (cfg c) (run c) input in
  (r, with_run c x, w).

Definition mbedtls_cipher_finish (c : mbedtls_cipher_context_t)
    : Z * mbedtls_cipher_context_t * buffer_t :=
  let '(r, x, w) := finish_fn L (cipher_info c) (cfg c) (run c) in
  (r, with_run c x, w).

Definition mbedtls_cipher_crypt (c : mbedtls_cipher_context_t) (iv input : buffer_t)
    : Z * mbedtls_cipher_context_t * buffer_t :=
  let '(r, x, w) := crypt_fn L (cipher_info c) (cfg c) (run c) iv input in
  (r, with_run c x, w).

Definition mbedtls_cipher_auth_encrypt (c : mbedtls_cipher_context_t)
    (iv ad input : buffer_t) (tag_len : nat)
    : Z * mbedtls_cipher_context_t * (buffer_t * buffer_t) :=
  let '(r, x, w, t) := auth_encrypt_fn L (cipher_info c) (cfg c) (run c) iv ad input tag_len in
  (r, with_run c x, (w, t)).

Definition mbedtls_cipher_auth_decrypt (c : mbedtls_cipher_context_t)
    (iv ad input tag : buffer_t) : Z * mbedtls_cipher_context_t * buffer_t :=
  let '(r, x, w) := auth_decrypt_fn L (cipher_info c) (cfg c) (run c) iv ad input tag in
  (r, with_run c x, w).

(** [native_info(type)] *)
Definition native_info (type : cipher_t L) : outcome mbedtls_cipher_info_t :=
  match cipher_info_from_type L type with
  | Some i => Ok i
  | None => Throw unknown_cipher
  end.

(** The static [cipher::block_size(type)] and [cipher::block_mode(type)]. *)
Definition cipher_block_size (type : cipher_t L) : outcome nat :=
  match native_info type with
  | Ok i => Ok (info_block_size i)
  | Throw e => Throw e
  end.

Definition cipher_block_mode (type : cipher_t L) : outcome cipher_bm.t :=
  match native_info type with
  | Ok i => Ok (from_native (info_mode i))
  | Throw e => Throw e
  end.

End mbedtls_context.

Arguments mbedtls_cipher_context_t L : clear implicits.

(** [buffer_t] is [std::string] (mbedcrypto's types header, not under
    src/); libstdc++ keeps up to 15 bytes in the object itself and more on
    the heap. *)
Definition string_inline_capacity : nat := 15.

(** ** [struct cipher_impl] *)

Module cipher_impl.
Section impl.
Context {L : mbedtls_lib}.

Record t := {
  ctx_ : mbedtls_cipher_context_t L;
  iv_data_ : buffer_t
}.

(** [cipher_impl()]: [mbedtls_cipher_init], empty [iv_data_]. *)
Definition init : t := {| ctx_ := mbedtls_cipher_init; iv_data_ := [] |}.

Definition with_ctx (s : t) (c : mbedtls_cipher_context_t L) : t :=
  {| ctx_ := c; iv_data_ := iv_data_ s |}.

(** Run an mbedtls call on [ctx_], keep its code and output; never throws. *)
Definition call {A} (f : mbedtls_cipher_context_t L -> Z * mbedtls_cipher_context_t L * A)
    : stM t (Z * A) :=
  fun s => let '(r, c, a) := f (ctx_ s) in (Ok (r, a), with_ctx s c).

(** [mbedcrypto_c_call(FUNC, ...)]: throw [exception{ret, #FUNC}] on a
    non-zero code. *)
Definition c_call_out {A} (tag : string)
    (f : mbedtls_cipher_context_t L -> Z * mbedtls_cipher_context_t L * A) : stM t A :=
  '(r, a) <- call f;;
  if Z.eqb r 0 then ret a else throw (mbed_exception r tag).

Definition c_call (tag : string)
    (f : mbedtls_cipher_context_t L -> Z * mbedtls_cipher_context_t L) : stM t unit :=
  c_call_out tag (fun c => let '(r, c') := f c in (r, c', tt)).

Definition setup (type : cipher_t L) : stM t unit :=
  cinfot <- lift (native_info type);;
  c_call "mbedtls_cipher_setup" (fun c => mbedtls_cipher_setup c cinfot).

(** [mbedtls_cipher_get_block_size] answers 0 without algorithm. *)
Definition block_size (s : t) : nat :=
  match cipher_info (ctx_ s) with Some i => info_block_size i | None => 0 end.

(** [ctx_.cipher_info->iv_size]; the source dereferences without a check,
    the context is always set up first. *)
Definition iv_size (s : t) : nat :=
  match cipher_info (ctx_ s) with Some i => info_iv_size i | None => 0 end.

Definition block_mode (s : t) : cipher_bm.t :=
  match cipher_info (ctx_ s) with
  | Some i => from_native (info_mode i)
  | None => cipher_bm.none
  end.

(** [void iv(buffer_view_t)]: remember the IV, then install it. *)
Definition iv (iv_data : buffer_t) : stM t unit :=
  fun s => c_call "mbedtls_cipher_set_iv" (fun c => mbedtls_cipher_set_iv c iv_data)
             {| ctx_ := ctx_ s; iv_data_ := iv_data |}.

(** [reset_last_iv()]: [iv(iv_data_)], whose [buffer_view_t] argument
    points into [iv_data_] itself.  In [iv], [iv_data_ =
    iv_data.to<buffer_t>()] first copies the viewed bytes, then moves the
    copy into [iv_data_].  An IV that fits [std::string]'s inline buffer is
    copied over in place, and the view shows the same bytes.  A longer one
    lives on the heap: the move hands the old block to the temporary, which
    frees it, and [mbedtls_cipher_set_iv] then reads the IV through a view
    of freed storage. *)
Definition reset_last_iv : stM t unit :=
  fun s =>
    let old := iv_data_ s in
    let seen := if Nat.leb (length old) string_inline_capacity then old
                else freed_read L old in
    c_call "mbedtls_cipher_set_iv" (fun c => mbedtls_cipher_set_iv c seen)
      {| ctx_ := ctx_ s; iv_data_ := old |}.

Definition key (key_data : buffer_t) (m : mode) : stM t unit :=
  c_call "mbedtls_cipher_setkey" (fun c =>
    mbedtls_cipher_setkey c key_data (Nat.shiftl (length key_data) 3)
      (match m with encrypt_mode => MBEDTLS_ENCRYPT | decrypt_mode => MBEDTLS_DECRYPT end)).

Definition padding (p : padding_t.t) : stM t unit :=
  match p with
  | padding_t.none => ret tt
  | _ => c_call "mbedtls_cipher_set_padding_mode"
           (fun c => mbedtls_cipher_set_padding_mode c (to_native p))
  end.

(** The loop of [update_chunked]: [n] blocks left, [src] at [i_index],
    output at [poutput + o_index] inside the caller's memory [mem]
    ([poutput] is [mem + base]). *)
Fixpoint update_loop (n bsize : nat) (src : buffer_t) (c : mbedtls_cipher_context_t L)
    (mem : buffer_t) (base o_index : nat)
    : Z * mbedtls_cipher_context_t L * buffer_t * nat :=
  match n with
  | O => (0%Z, c, mem, o_index)
  | S n' =>
      let '(r, c', usize) := mbedtls_cipher_update c (firstn bsize src) in
      let mem' := write_at mem (base + o_index) usize in
      if Z.ltb r 0 then (r, c', mem', o_index)
      else update_loop n' bsize (skipn bsize src) c' mem' base (o_index + length usize)
  end.

(** [int update_chunked(achunk, poutput, size_t& osize)]: code, caller's
    memory, new value of [osize]; never throws. *)
Definition update_chunked (achunk mem : buffer_t) (base osize : nat) (s : t)
    : (Z * buffer_t * nat) * t :=
  let bsize := block_size s in
  if negb (Nat.eqb (length achunk mod bsize) 0)
  then ((MBEDTLS_ERR_CIPHER_FULL_BLOCK_EXPECTED, mem, osize), s)
  else
    let '(r, c', mem', o_index) :=
      update_loop (length achunk / bsize) bsize achunk (ctx_ s) mem base 0 in
    if Z.ltb r 0 then ((r, mem', osize), with_ctx s c')
    else ((0%Z, mem', o_index), with_ctx s c').

End impl.
End cipher_impl.
Arguments cipher_impl.t L : clear implicits.

(** ** [class crypt_engine]: the one-shot encrypt/decrypt *)

Module crypt_engine.
Section engine.
Context {L : mbedtls_lib}.

(** The immutable fields; [cim_] is the state of the computation. *)
Record t := {
  block_mode_ : cipher_bm.t;
  block_size_ : nat;
  input_size_ : nat;
  chunks_ : nat;
  input_ : buffer_t
}.

(** The first statements of the constructor's body, on [cim_]. *)
Definition configure (type : cipher_t L) (pad : padding_t.t) (iv key : buffer_t)
    (m : mode) : stM (cipher_impl.t L) unit :=
  cipher_impl.setup type;;
  cipher_impl.padding pad;;
  cipher_impl.iv iv;;
  cipher_impl.key key m.

(** The constructor: member initializers, then the body. *)
Definition make (type : cipher_t L) (pad : padding_t.t) (iv key : buffer_t)
    (m : mode) (input : buffer_t) : stM (cipher_impl.t L) t :=
  bm <- lift (cipher_block_mode type);;
  bsz <- lift (cipher_block_size type);;
  configure type pad iv key m;;
  if is_ecb bm then
    if orb (Nat.eqb (length input) 0) (negb (Nat.eqb (length input mod bsz) 0))
    then throw (usage_error
           "ecb cipher block: a valid input size must be dividable by block size")
    else ret {| block_mode_ := bm; block_size_ := bsz; input_size_ := length input;
                chunks_ := length input / bsz; input_ := input |}
  else ret {| block_mode_ := bm; block_size_ := bsz; input_size_ := length input;
              chunks_ := 1; input_ := input |}.

Definition output_size (e : t) : nat := 32 + input_size_ e + block_size_ e.

(** The per-block loop of [compute]: [k] calls left, source at [pSrc],
    destination offset [pDes], accumulated [osize]. *)
Fixpoint crypt_loop (e : t) (k : nat) (pSrc : buffer_t) (pDes osize : nat)
    (output : buffer_t) : stM (cipher_impl.t L) (nat * buffer_t) :=
  match k with
  | O => ret (osize, output)
  | S k' =>
      s <- get;;
      done_size <- cipher_impl.c_call_out "mbedtls_cipher_crypt" (fun c =>
        mbedtls_cipher_crypt c
          (firstn (cipher_impl.iv_size s) (cipher_impl.iv_data_ s))
          (firstn (block_size_ e) pSrc));;
      crypt_loop e k' (skipn (block_size_ e) pSrc) (pDes + block_size_ e)
        (osize + length done_size) (write_at output pDes done_size)
  end.

(** [compute()]; the IV pointer is [cim_.iv()] read for [cim_.iv_size()]
    bytes. *)
Definition compute (e : t) : stM (cipher_impl.t L) buffer_t :=
  let output := zeros (output_size e) in
  if Nat.eqb (chunks_ e) 1 then
    s <- get;;
    w <- cipher_impl.c_call_out "mbedtls_cipher_crypt" (fun c =>
      mbedtls_cipher_crypt c
        (firstn (cipher_impl.iv_size s) (cipher_impl.iv_data_ s)) (input_ e));;
    ret (resize (length w) (write_at output 0 w))
  else
    '(osize, output') <- crypt_loop e (chunks_ e) (input_ e) 0 0 output;;
    ret (resize osize output').

Definition run (type : cipher_t L) (pad : padding_t.t) (iv key : buffer_t)
    (m : mode) (input : buffer_t) : outcome buffer_t :=
  fst ((e <- make type pad iv key m input;; compute e) cipher_impl.init).

End engine.
End crypt_engine.

(** ** [class cipher] *)

Module cipher.
Section cipher.
Context {L : mbedtls_lib}.
Abbreviation st := (stM (cipher_impl.t L)).

(** [cipher(type)] *)
Definition make (type : cipher_t L) : outcome (cipher_impl.t L) :=
  match cipher_impl.setup type cipher_impl.init with
  | (Ok _, s) => Ok s
  | (Throw e, _) => Throw e
  end.

Definition encrypt type pad iv key input : outcome buffer_t :=
  crypt_engine.run (L := L) type pad iv key encrypt_mode input.

Definition decrypt type pad iv key input : outcome buffer_t :=
  crypt_engine.run (L := L) type pad iv key decrypt_mode input.

(** [encrypt_aead]; [MBEDTLS_CIPHER_MODE_AEAD] is the build switch. *)
Definition encrypt_aead (MBEDTLS_CIPHER_MODE_AEAD : bool) (type : cipher_t L)
    (iv key ad input : buffer_t) : outcome (buffer_t * buffer_t) :=
  if MBEDTLS_CIPHER_MODE_AEAD then
    fst ((cipher_impl.setup type;;
          cipher_impl.key key encrypt_mode;;
          s <- get;;
          let olen := length input + cipher_impl.block_size s in
          let output := zeros olen in
          let tag := zeros 16 in
          '(w, tw) <- cipher_impl.c_call_out "mbedtls_cipher_auth_encrypt"
                        (fun c => mbedtls_cipher_auth_encrypt c iv ad input 16);;
          ret (write_at tag 0 tw, resize (length w) (write_at output 0 w)))
         cipher_impl.init)
  else Throw aead_error.

Definition decrypt_aead (MBEDTLS_CIPHER_MODE_AEAD : bool) (type : cipher_t L)
    (iv key ad tag input : buffer_t) : outcome (bool * buffer_t) :=
  if MBEDTLS_CIPHER_MODE_AEAD then
    fst ((cipher_impl.setup type;;
          cipher_impl.key key decrypt_mode;;
          s <- get;;
          let olen := length input + cipher_impl.block_size s in
          let output := zeros olen in
          '(r, w) <- cipher_impl.call
                       (fun c => mbedtls_cipher_auth_decrypt c iv ad input tag);;
          let output := resize (length w) (write_at output 0 w) in
          if Z.eqb r MBEDTLS_ERR_CIPHER_AUTH_FAILED then ret (false, output)
          else if Z.eqb r 0 then ret (true, output)
          else throw (mbed_exception r "decrypt_aead"))
         cipher_impl.init)
  else Throw aead_error.

Definition iv (iv_data : buffer_t) : st unit := cipher_impl.iv iv_data.
Definition key (key_data : buffer_t) (m : mode) : st unit := cipher_impl.key key_data m.
Definition padding (p : padding_t.t) : st unit := cipher_impl.padding p.
Definition block_mode (s : cipher_impl.t L) : cipher_bm.t := cipher_impl.block_mode s.
Definition block_size (s : cipher_impl.t L) : nat := cipher_impl.block_size s.

Definition start : st unit :=
  cipher_impl.reset_last_iv;;
  cipher_impl.c_call "mbedtls_cipher_reset" mbedtls_cipher_reset.

(** [buffer_t update(buffer_view_t)] *)
Definition update (input : buffer_t) : st buffer_t :=
  s <- get;;
  let osize := length input + cipher_impl.block_size s + 32 in
  let output := zeros osize in
  if is_ecb (block_mode s) then
    fun s =>
      let '((r, output', osize'), s') :=
        cipher_impl.update_chunked input output 0 osize s in
      if Z.eqb r 0 then (Ok (resize osize' output'), s')
      else (Throw (mbed_exception r "update"), s')
  else
    w <- cipher_impl.c_call_out "mbedtls_cipher_update"
           (fun c => mbedtls_cipher_update c input);;
    ret (resize (length w) (write_at output 0 w)).

(** [int update(input, unsigned char* output, size_t& output_size) noexcept]:
    code, caller's memory at [output], new [output_size]. *)
Definition update_raw (input mem : buffer_t) (output_size : nat) (s : cipher_impl.t L)
    : (Z * buffer_t * nat) * cipher_impl.t L :=
  if is_ecb (block_mode s) then
    cipher_impl.update_chunked input mem 0 output_size s
  else
    let '(r, c, w) := mbedtls_cipher_update (cipher_impl.ctx_ s) input in
    ((r, write_at mem 0 w, length w), cipher_impl.with_ctx s c).

(** [buffer_t finish()] *)
Definition finish : st buffer_t :=
  s <- get;;
  let osize := cipher_impl.block_size s + 32 in
  let output := zeros osize in
  w <- cipher_impl.c_call_out "mbedtls_cipher_finish" mbedtls_cipher_finish;;
  ret (resize (length w) (write_at output 0 w)).

(** [int finish(unsigned char* output, size_t& output_size) noexcept] *)
Definition finish_raw (mem : buffer_t) (output_size : nat) (s : cipher_impl.t L)
    : (Z * buffer_t * nat) * cipher_impl.t L :=
  let '(r, c, w) := mbedtls_cipher_finish (cipher_impl.ctx_ s) in
  ((r, write_at mem 0 w, length w), cipher_impl.with_ctx s c).

(** [buffer_t crypt(buffer_view_t)] *)
Definition crypt (input : buffer_t) : st buffer_t :=
  start;;
  s <- get;;
  let osize := 32 + length input + cipher_impl.block_size s in
  let output := zeros osize in
  w <- cipher_impl.c_call_out "mbedtls_cipher_update"
         (fun c => mbedtls_cipher_update c input);;
  fin <- cipher_impl.c_call_out "mbedtls_cipher_finish" mbedtls_cipher_finish;;
  ret (resize (length w + length fin) (write_at (write_at output 0 w) (length w) fin)).

End cipher.
End cipher.

(** ** A small concrete library, for the concrete runs *)

(** Two algorithms: [true] is a 2-byte-block ECB cipher, [false] a
    2-byte-block CBC cipher with a 2-byte IV.  Data calls copy their input
    (the identity block cipher); the running part counts update calls;
    [upd] is the update function, so that runs can make it fail. *)
Definition toy_info (b : bool) : mbedtls_cipher_info_t :=
  if b then {| info_mode := MBEDTLS_MODE_ECB; info_key_bitlen := 16;
               info_iv_size := 0; info_block_size := 2 |}
  else {| info_mode := MBEDTLS_MODE_CBC; info_key_bitlen := 16;
          info_iv_size := 2; info_block_size := 2 |}.

Definition toy_lib (upd : nat -> buffer_t -> Z * nat * buffer_t) : mbedtls_lib := {|
  cipher_t := bool;
  config := unit;
  running := nat;
  cipher_info_from_type := fun b => Some (toy_info b);
  init_config := tt;
  init_running := 0;
  setup_fn := fun _ => (0%Z, tt, 0);
  set_padding_fn := fun _ c _ => (0%Z, c);
  setkey_fn := fun _ c _ _ _ => (0%Z, c);
  set_iv_fn := fun _ _ r _ => (0%Z, r);
  reset_fn := fun _ _ _ => (0%Z, 0);
  update_fn := fun _ _ r x => upd r x;
  finish_fn := fun _ _ r => (0%Z, r, []);
  crypt_fn := fun _ _ r _ x => (0%Z, r, x);
  auth_encrypt_fn := fun _ _ r _ _ x n => (0%Z, r, x, zeros n);
  auth_decrypt_fn := fun _ _ r _ _ x tag =>
    if Nat.eqb (length tag) 16 then (0%Z, r, x)
    else (MBEDTLS_ERR_CIPHER_AUTH_FAILED, r, x);
  freed_read := fun b => b
|}.

(** The identity update that never fails. *)
Definition toy_copy : mbedtls_lib := toy_lib (fun r x => (0%Z, S r, x)).

Definition b4 : buffer_t := [Byte.x01; Byte.x02; Byte.x03; Byte.x04].

(** An update that succeeds on its first call and fails afterwards. *)
Definition upd_fail_second (r : nat) (x : buffer_t) : Z * nat * buffer_t :=
  if Nat.eqb r 0 then (0%Z, S r, x) else (MBEDTLS_ERR_CIPHER_BAD_INPUT_DATA, r, []).

(** An update that always fails. *)
Definition upd_fail (r : nat) (x : buffer_t) : Z * nat * buffer_t :=
  (MBEDTLS_ERR_CIPHER_BAD_INPUT_DATA, r, []).

(** The cipher object [cipher(b)] of a toy library. *)
Definition toy_cipher (upd : nat -> buffer_t -> Z * nat * buffer_t) (b : bool)
    : cipher_impl.t (toy_lib upd) :=
  match cipher.make (L := toy_lib upd) b with
  | Ok c => c
  | Throw _ => cipher_impl.init
  end.

(** ** Vocabulary of the properties *)

(** The blocks the ECB drivers feed: [n] slices of [bsize] bytes. *)
Fixpoint blocks_of (bsize n : nat) (src : buffer_t) : list buffer_t :=
  match n with
  | O => []
  | S n' => firstn bsize src :: blocks_of bsize n' (skipn bsize src)
  end.

(** [runs_ok step good c bl c' ws]: calling [step] on the blocks [bl] in
    order from context [c], every call answers a code satisfying [good],
    writes [ws] and leaves [c']. *)
Inductive runs_ok {L : mbedtls_lib}
    (step : mbedtls_cipher_context_t L -> buffer_t ->
            Z * mbedtls_cipher_context_t L * buffer_t) (good : Z -> Prop)
  : mbedtls_cipher_context_t L -> list buffer_t -> mbedtls_cipher_context_t L ->
    list buffer_t -> Prop :=
| runs_nil c : runs_ok step good c [] c []
| runs_cons c b bl c1 r w c2 ws :
    step c b = (r, c1, w) -> good r -> runs_ok step good c1 bl c2 ws ->
    runs_ok step good c (b :: bl) c2 (w :: ws).

Definition sum_lengths (ws : list buffer_t) : nat := list_sum (map (@length _) ws).

(** The writes of the one-shot ECB loop: the [i]-th output at
    [pDes + i * bsize]. *)
Fixpoint write_blocks (output : buffer_t) (pDes bsize : nat) (ws : list buffer_t)
    : buffer_t :=
  match ws with
  | [] => output
  | w :: ws' => write_blocks (write_at output pDes w) (pDes + bsize) bsize ws'
  end.

(** [cim_] after the constructor's configuration steps, from a fresh
    [cipher_impl]. *)
Definition configured {L : mbedtls_lib} (type : cipher_t L) pad iv key m
    (s : cipher_impl.t L) : Prop :=
  crypt_engine.configure type pad iv key m cipher_impl.init = (Ok tt, s).


(** Primitive contract: ECB maps one block to one block. *)
Definition ecb_block_exact (L : mbedtls_lib) : Prop :=
  forall info c r ivb x r' y,
    info_mode info = MBEDTLS_MODE_ECB -> length x = info_block_size info ->
    crypt_fn L (Some info) c r ivb x = (0%Z, r', y) -> length y = info_block_size info.

(** Primitive contract on written lengths (mbedtls: an update writes at
    most [ilen + block_size], a finish at most [block_size], a one-shot
    crypt at most [ilen + block_size]; ECB writes at most its input). *)
Definition output_contract (L : mbedtls_lib) : Prop :=
  (forall info c r x code r' w,
     update_fn L (Some info) c r x = (code, r', w) -> (0 <= code)%Z ->
     length w <= length x + info_block_size info) /\
  (forall info c r x code r' w,
     info_mode info = MBEDTLS_MODE_ECB ->
     update_fn L (Some info) c r x = (code, r', w) -> (0 <= code)%Z ->
     length w <= length x) /\
  (forall info c r code r' w,
     finish_fn L (Some info) c r = (code, r', w) -> code = 0%Z ->
     length w <= info_block_size info) /\
  (forall info c r ivb x r' w,
     crypt_fn L (Some info) c r ivb x = (0%Z, r', w) ->
     length w <= length x + info_block_size info) /\
  (forall info c r ivb x r' w,
     info_mode info = MBEDTLS_MODE_ECB ->
     crypt_fn L (Some info) c r ivb x = (0%Z, r', w) -> length w <= length x).

(** Primitive contract: [mbedtls_cipher_update] answers 0 or a negative
    error code, never a positive one. *)
Definition update_codes_mbedtls (L : mbedtls_lib) : Prop :=
  forall info c r x code r' w, update_fn L info c r x = (code, r', w) -> (code <= 0)%Z.

(** Primitive contract for [encrypt_aead]: the tag written has at most
    [tag_len] bytes, the ciphertext at most [ilen + block_size]. *)
Definition aead_contract (L : mbedtls_lib) : Prop :=
  forall info c r iv ad x n r' w t,
    auth_encrypt_fn L (Some info) c r iv ad x n = (0%Z, r', w, t) ->
    length t <= n /\ length w <= length x + info_block_size info.

(** [s'] differs from [s] at most in the running part of the primitive. *)
Definition run_only {L : mbedtls_lib} (s s' : cipher_impl.t L) : Prop :=
  cipher_impl.ctx_ s' = with_run (cipher_impl.ctx_ s) (run (cipher_impl.ctx_ s')) /\
  cipher_impl.iv_data_ s' = cipher_impl.iv_data_ s.

(** ** The remaining members of [class cipher] *)

(** The static [cipher::iv_size(type)] and [cipher::key_bitlen(type)]. *)
Definition cipher_iv_size {L : mbedtls_lib} (type : cipher_t L) : outcome nat :=
  match native_info type with
  | Ok i => Ok (info_iv_size i)
  | Throw e => Throw e
  end.

Definition cipher_key_bitlen {L : mbedtls_lib} (type : cipher_t L) : outcome nat :=
  match native_info type with
  | Ok i => Ok (info_key_bitlen i)
  | Throw e => Throw e
  end.

(** The mbedtls calls of the GCM members, abstract like the others:
    [mbedtls_cipher_update_ad], [mbedtls_cipher_write_tag] (code, running
    part, tag bytes written) and [mbedtls_cipher_check_tag]. *)
Record mbedtls_gcm_lib (L : mbedtls_lib) := {
  update_ad_fn : option mbedtls_cipher_info_t -> config L -> running L -> buffer_t ->
                 Z * running L;
  write_tag_fn : option mbedtls_cipher_info_t -> config L -> running L -> nat ->
                 Z * running L * buffer_t;
  check_tag_fn : option mbedtls_cipher_info_t -> config L -> running L -> buffer_t ->
                 Z * running L
}.
Arguments update_ad_fn {L} _.
Arguments write_tag_fn {L} _.
Arguments check_tag_fn {L} _.

Section gcm_context.
Context {L : mbedtls_lib} (G : mbedtls_gcm_lib L).

Definition mbedtls_cipher_update_ad (c : mbedtls_cipher_context_t L) (ad : buffer_t)
    : Z * mbedtls_cipher_context_t L :=
  let '(r, x) := update_ad_fn G (cipher_info c) (cfg c) (run c) ad in (r, with_run c x).

Definition mbedtls_cipher_write_tag (c : mbedtls_cipher_context_t L) (tag_len : nat)
    : Z * mbedtls_cipher_context_t L * buffer_t :=
  let '(r, x, t) := write_tag_fn G (cipher_info c) (cfg c) (run c) tag_len in
  (r, with_run c x, t).

Definition mbedtls_cipher_check_tag (c : mbedtls_cipher_context_t L) (tag : buffer_t)
    : Z * mbedtls_cipher_context_t L :=
  let '(r, x) := check_tag_fn G (cipher_info c) (cfg c) (run c) tag in (r, with_run c x).

End gcm_context.

Module cipher_rest.
Section rest.
Context {L : mbedtls_lib}.

(** [cipher_impl::key_bitlen()]: [ctx_.cipher_info->key_bitlen]; like
    [iv_size()], read on a set-up context. *)
Definition impl_key_bitlen (s : cipher_impl.t L) : nat :=
  match cipher_info (cipher_impl.ctx_ s) with Some i => info_key_bitlen i | None => 0 end.

(** [cipher::iv_size()] and [cipher::key_bitlen()] *)
Definition iv_size (s : cipher_impl.t L) : nat := cipher_impl.iv_size s.
Definition key_bitlen (s : cipher_impl.t L) : nat := impl_key_bitlen s.

(** [cipher::supports_aead()]: the build switch. *)
Definition supports_aead (MBEDTLS_CIPHER_MODE_AEAD : bool) : bool :=
  if MBEDTLS_CIPHER_MODE_AEAD then true else false.

(** The overloads below write through [to_ptr(output) + out_index] into
    the caller's [buffer_t], which keeps its size: a write past
    [output.size()] is undefined behaviour, [None].  [write_at] lengthens a
    buffer exactly when it writes past its end, and the writes of one call
    follow each other, so they all stayed inside [output] exactly when the
    buffer afterwards is no longer than [output]. *)
Definition within_output {A} (output : buffer_t) (res : (A * buffer_t) * cipher_impl.t L)
    : option ((A * buffer_t) * cipher_impl.t L) :=
  if Nat.leb (length (snd (fst res))) (length output) then Some res else None.

(** [size_t update(input, in_index, count, buffer_t& output, out_index)]:
    the result, the caller's [output] afterwards (written through on every
    path, also before a throw), the object; [None] for undefined
    behaviour.  The view [{input.data() + in_index, count}] is the [count]
    bytes at [in_index]; reaching past [input] is undefined. *)
Definition update_at (input : buffer_t) (in_index count : nat) (output : buffer_t)
    (out_index : nat) (s : cipher_impl.t L)
    : option ((outcome nat * buffer_t) * cipher_impl.t L) :=
  if Nat.ltb (length input) (in_index + count) then None
  else
    let view := firstn count (skipn in_index input) in
    within_output output
      (if is_ecb (cipher.block_mode s) then
         let '((r, output', usize), s') :=
           cipher_impl.update_chunked view output out_index 0 s in
         if Z.eqb r 0 then ((Ok usize, output'), s')
         else ((Throw (mbed_exception r "update"), output'), s')
       else
         let '(r, c, w) := mbedtls_cipher_update (cipher_impl.ctx_ s) view in
         ((if Z.eqb r 0 then Ok (length w)
           else Throw (mbed_exception r "mbedtls_cipher_update"),
           write_at output out_index w), cipher_impl.with_ctx s c)).

(** [size_t finish(buffer_t& output, size_t out_index)] *)
Definition finish_at (output : buffer_t) (out_index : nat) (s : cipher_impl.t L)
    : option ((outcome nat * buffer_t) * cipher_impl.t L) :=
  within_output output
    (let '(r, c, w) := mbedtls_cipher_finish (cipher_impl.ctx_ s) in
     ((if Z.eqb r 0 then Ok (length w)
       else Throw (mbed_exception r "mbedtls_cipher_finish"),
       write_at output out_index w), cipher_impl.with_ctx s c)).

End rest.

(** The GCM members, in the build with [MBEDTLS_GCM_C] (the other build
    throws [exceptions::gcm_error] and calls nothing). *)
Section gcm.
Context {L : mbedtls_lib} (G : mbedtls_gcm_lib L).

(** [void gcm_additional_data(buffer_view_t ad)] *)
Definition gcm_additional_data (ad : buffer_t) : stM (cipher_impl.t L) unit :=
  cipher_impl.c_call "mbedtls_cipher_update_ad" (fun c => mbedtls_cipher_update_ad G c ad).

(** [buffer_t gcm_encryption_tag(size_t length)] *)
Definition gcm_encryption_tag (length : nat) : stM (cipher_impl.t L) buffer_t :=
  let tag := zeros length in
  t <- cipher_impl.c_call_out "mbedtls_cipher_write_tag"
         (fun c => mbedtls_cipher_write_tag G c length);;
  ret (write_at tag 0 t).

(** [bool gcm_check_decryption_tag(buffer_view_t tag)] *)
Definition gcm_check_decryption_tag (tag : buffer_t) : stM (cipher_impl.t L) bool :=
  '(r, _) <- cipher_impl.call (fun c => let '(r, c') := mbedtls_cipher_check_tag G c tag in
                                        (r, c', tt));;
  if Z.eqb r 0 then ret true
  else if Z.eqb r MBEDTLS_ERR_CIPHER_AUTH_FAILED then ret false
  else throw (mbed_exception r "gcm_check_decryption_tag").

End gcm.
End cipher_rest.

(** The algorithm and the remembered IV of the object are those of [s]. *)
Definition same_setup {L : mbedtls_lib} (s s' : cipher_impl.t L) : Prop :=
  cipher_info (cipher_impl.ctx_ s') = cipher_info (cipher_impl.ctx_ s) /\
  cipher_impl.iv_data_ s' = cipher_impl.iv_data_ s.

(** A library like [toy_copy] that knows only the ECB algorithm [true]. *)
Definition toy_ecb_only : mbedtls_lib := {|
  cipher_t := bool;
  config := unit;
  running := nat;
  cipher_info_from_type := fun b => if b then Some (toy_info true) else None;
  init_config := tt;
  init_running := 0;
  setup_fn := fun _ => (0%Z, tt, 0);
  set_padding_fn := fun _ c _ => (0%Z, c);
  setkey_fn := fun _ c _ _ _ => (0%Z, c);
  set_iv_fn := fun _ _ r _ => (0%Z, r);
  reset_fn := fun _ _ _ => (0%Z, 0);
  update_fn := fun _ _ r x => (0%Z, S r, x);
  finish_fn := fun _ _ r => (0%Z, r, []);
  crypt_fn := fun _ _ r _ x => (0%Z, r, x);
  auth_encrypt_fn := fun _ _ r _ _ x n => (0%Z, r, x, zeros n);
  auth_decrypt_fn := fun _ _ r _ _ x tag => (0%Z, r, x);
  freed_read := fun b => b
|}.




(** A library whose running part is the IV last installed, and whose
    freed heap blocks read as zeros. *)
Definition toy_iv_lib : mbedtls_lib := {|
  cipher_t := bool;
  config := unit;
  running := buffer_t;
  cipher_info_from_type := fun b => Some (toy_info b);
  init_config := tt;
  init_running := [];
  setup_fn := fun _ => (0%Z, tt, []);
  set_padding_fn := fun _ c _ => (0%Z, c);
  setkey_fn := fun _ c _ _ _ => (0%Z, c);
  set_iv_fn := fun _ _ _ v => (0%Z, v);
  reset_fn := fun _ _ r => (0%Z, r);
  update_fn := fun _ _ r x => (0%Z, r, x);
  finish_fn := fun _ _ r => (0%Z, r, []);
  crypt_fn := fun _ _ r _ x => (0%Z, r, x);
  auth_encrypt_fn := fun _ _ r _ _ x n => (0%Z, r, x, zeros n);
  auth_decrypt_fn := fun _ _ r _ _ x _ => (0%Z, r, x);
  freed_read := fun b => zeros (length b)
|}.

(** The CBC object of [toy_iv_lib] after [iv(v)]. *)
Definition toy_iv_set (v : buffer_t) : cipher_impl.t toy_iv_lib :=
  match cipher.make (L := toy_iv_lib) false with
  | Ok c => snd (cipher.iv v c)
  | Throw _ => cipher_impl.init
  end.

(** * Properties *)

Example toy_encrypt_ecb :
  cipher.encrypt (L := toy_copy) true padding_t.none [] [] b4 = Ok b4.
Proof. reflexivity. Qed.

Example toy_encrypt_ecb_odd :
  cipher.encrypt (L := toy_copy) true padding_t.none [] [] [Byte.x01] =
  Throw (usage_error
    "ecb cipher block: a valid input size must be dividable by block size").
Proof. reflexivity. Qed.

(** ** Buffers *)

Lemma length_zeros n : length (zeros n) = n.
Proof. apply repeat_length. Qed.

Lemma length_resize n buf : length (resize n buf) = n.
Proof.
  unfold resize. rewrite length_app, length_firstn, length_zeros. lia.
Qed.

(** Truncating to the written length after one write at the start gives
    exactly the written bytes. *)
Lemma resize_write0 (buf w : buffer_t) : resize (length w) (write_at buf 0 w) = w.
Proof.
  unfold resize, write_at. cbn [firstn app Nat.add].
  rewrite firstn_app, firstn_all, Nat.sub_diag, app_nil_r.
  rewrite length_app. replace (length w - (length w + _)) with 0 by lia.
  apply app_nil_r.
Qed.

Lemma with_ctx_eta {L} (s : cipher_impl.t L) : cipher_impl.with_ctx s (cipher_impl.ctx_ s) = s.
Proof. destruct s; reflexivity. Qed.

(** ** C8: padding *)

(** C8: [padding(padding_t::none)] does nothing and cannot fail: the whole
    cipher state comes back unchanged, with no mbedtls call; any other mode
    is forwarded to [mbedtls_cipher_set_padding_mode]. *)
Theorem padding_none_is_noop (L : mbedtls_lib) (s : cipher_impl.t L) :
  cipher.padding padding_t.none s = (Ok tt, s) /\
  (forall p, p <> padding_t.none ->
     cipher.padding p s =
     cipher_impl.c_call "mbedtls_cipher_set_padding_mode"
       (fun c => mbedtls_cipher_set_padding_mode c (to_native p)) s).
Proof.
  split; [reflexivity |].
  intros p Hp; destruct p; [congruence | reflexivity ..].
Qed.

(** ** C4: authenticated decryption *)

(** C4: once [decrypt_aead] reaches [mbedtls_cipher_auth_decrypt], an
    authentication failure is returned as [(false, plaintext)], success as
    [(true, plaintext)], and any other code is thrown. *)
Theorem decrypt_aead_outcomes (L : mbedtls_lib) type iv key ad tag input s1 s2 r c w :
  cipher_impl.setup type cipher_impl.init = (Ok tt, s1) ->
  cipher_impl.key key decrypt_mode s1 = (Ok tt, s2) ->
  mbedtls_cipher_auth_decrypt (cipher_impl.ctx_ s2) iv ad input tag = (r, c, w) ->
  cipher.decrypt_aead (L := L) true type iv key ad tag input =
    if Z.eqb r MBEDTLS_ERR_CIPHER_AUTH_FAILED then Ok (false, w)
    else if Z.eqb r 0 then Ok (true, w)
    else Throw (mbed_exception r "decrypt_aead").
Proof.
  intros H1 H2 H3. unfold cipher.decrypt_aead, bind.
  rewrite H1, H2. unfold get, cipher_impl.call. rewrite H3.
  rewrite resize_write0.
  destruct (Z.eqb r MBEDTLS_ERR_CIPHER_AUTH_FAILED); [reflexivity |].
  destruct (Z.eqb r 0); reflexivity.
Qed.

Lemma decrypt_aead_outcomes_witness :
  cipher.decrypt_aead (L := toy_copy) true false [] [] [] [Byte.x00] b4 = Ok (false, b4).
Proof.
  refine (eq_trans (decrypt_aead_outcomes toy_copy false [] [] [] [Byte.x00] b4
                      _ _ _ _ _ eq_refl eq_refl eq_refl) _).
  reflexivity.
Defined.

(** ** The one-shot engine's constructor *)

Lemma is_ecb_from_native m : is_ecb (from_native m) = true <-> m = MBEDTLS_MODE_ECB.
Proof. destruct m; simpl; split; congruence. Qed.

Lemma make_spec {L : mbedtls_lib} type pad iv key m input (s0 : cipher_impl.t L) i :
  cipher_info_from_type L type = Some i ->
  crypt_engine.make type pad iv key m input s0 =
  match crypt_engine.configure type pad iv key m s0 with
  | (Ok _, s) =>
      if is_ecb (from_native (info_mode i)) then
        if orb (Nat.eqb (length input) 0)
               (negb (Nat.eqb (length input mod info_block_size i) 0))
        then (Throw (usage_error
               "ecb cipher block: a valid input size must be dividable by block size"), s)
        else (Ok {| crypt_engine.block_mode_ := from_native (info_mode i);
                    crypt_engine.block_size_ := info_block_size i;
                    crypt_engine.input_size_ := length input;
                    crypt_engine.chunks_ := length input / info_block_size i;
                    crypt_engine.input_ := input |}, s)
      else (Ok {| crypt_engine.block_mode_ := from_native (info_mode i);
                  crypt_engine.block_size_ := info_block_size i;
                  crypt_engine.input_size_ := length input;
                  crypt_engine.chunks_ := 1;
                  crypt_engine.input_ := input |}, s)
  | (Throw e, s) => (Throw e, s)
  end.
Proof.
  intros Hi. unfold crypt_engine.make, bind, lift, cipher_block_mode,
    cipher_block_size, native_info. rewrite Hi.
  destruct (crypt_engine.configure type pad iv key m s0) as [[[] | e] s]; [| reflexivity].
  destruct (is_ecb (from_native (info_mode i))); [| reflexivity].
  destruct (orb _ _); reflexivity.
Qed.

Lemma update_ecb_misaligned {L : mbedtls_lib} (c : cipher_impl.t L) x :
  cipher.block_mode c = cipher_bm.ecb ->
  length x mod cipher_impl.block_size c <> 0 ->
  cipher.update x c =
  (Throw (mbed_exception MBEDTLS_ERR_CIPHER_FULL_BLOCK_EXPECTED "update"), c).
Proof.
  intros Hm Hx. unfold cipher.update, bind, get. rewrite Hm. cbn [is_ecb].
  unfold cipher_impl.update_chunked.
  destruct (Nat.eqb_spec (length x mod cipher_impl.block_size c) 0); [contradiction |].
  reflexivity.
Qed.

Lemma update_ecb_empty {L : mbedtls_lib} (c : cipher_impl.t L) :
  cipher.block_mode c = cipher_bm.ecb -> 0 < cipher_impl.block_size c ->
  cipher.update [] c = (Ok [], c).
Proof.
  intros Hm Hb. unfold cipher.update, bind, get. rewrite Hm. cbn [is_ecb].
  unfold cipher_impl.update_chunked. cbn [length].
  rewrite Nat.Div0.mod_0_l, Nat.Div0.div_0_l. cbn. rewrite with_ctx_eta. reflexivity.
Qed.

(** C2, as the code has it: on an ECB one-shot whose cipher lookup,
    padding, IV and key installation succeed, an input of length zero or
    not a multiple of the block size throws [usage_error] from the
    constructor (no crypt call follows); a successful constructor counts
    [input_length / block_size] chunks for ECB, covering the input exactly,
    and one chunk otherwise.  A streaming ECB update throws
    [FULL_BLOCK_EXPECTED] on a length that is not a multiple of the block
    size and leaves the context unchanged, while an empty streaming update
    succeeds with an empty output. *)
Theorem ecb_chunk_count (L : mbedtls_lib) type pad iv key m input i s :
  cipher_info_from_type L type = Some i ->
  crypt_engine.configure type pad iv key m cipher_impl.init = (Ok tt, s) ->
  (info_mode i = MBEDTLS_MODE_ECB ->
   (length input = 0 \/ length input mod info_block_size i <> 0) ->
   crypt_engine.make type pad iv key m input cipher_impl.init =
     (Throw (usage_error
        "ecb cipher block: a valid input size must be dividable by block size"), s) /\
   crypt_engine.run type pad iv key m input =
     Throw (usage_error
        "ecb cipher block: a valid input size must be dividable by block size")) /\
  (forall e s', crypt_engine.make type pad iv key m input cipher_impl.init = (Ok e, s') ->
   (info_mode i = MBEDTLS_MODE_ECB ->
      crypt_engine.chunks_ e = length input / info_block_size i /\
      crypt_engine.chunks_ e * info_block_size i = length input /\
      0 < length input) /\
   (info_mode i <> MBEDTLS_MODE_ECB -> crypt_engine.chunks_ e = 1)) /\
  (forall (c : cipher_impl.t L) x,
     cipher.block_mode c = cipher_bm.ecb -> 0 < cipher_impl.block_size c ->
     (length x mod cipher_impl.block_size c <> 0 ->
      cipher.update x c =
      (Throw (mbed_exception MBEDTLS_ERR_CIPHER_FULL_BLOCK_EXPECTED "update"), c)) /\
     cipher.update [] c = (Ok [], c)).
Proof.
  intros Hi Hc. rewrite (make_spec type pad iv key m input _ i Hi), Hc.
  split; [| split].
  - intros Hm Hbad.
    assert (He : is_ecb (from_native (info_mode i)) = true) by (apply is_ecb_from_native; exact Hm).
    rewrite He.
    assert (Hb : orb (Nat.eqb (length input) 0)
                   (negb (Nat.eqb (length input mod info_block_size i) 0)) = true).
    { destruct Hbad as [H0 | H0]; [rewrite H0; reflexivity |].
      destruct (Nat.eqb_spec (length input mod info_block_size i) 0); [contradiction |].
      apply orb_true_r. }
    rewrite Hb. split; [reflexivity |].
    unfold crypt_engine.run, bind. rewrite (make_spec type pad iv key m input _ i Hi), Hc.
    rewrite He, Hb. reflexivity.
  - intros e s' He. split.
    + intros Hm.
      assert (Hx : is_ecb (from_native (info_mode i)) = true) by (apply is_ecb_from_native; exact Hm).
      rewrite Hx in He.
      destruct (Nat.eqb_spec (length input) 0) as [H0 | H0]; [discriminate |].
      destruct (Nat.eqb_spec (length input mod info_block_size i) 0) as [H1 | H1];
        [| discriminate].
      cbn in He. injection He as <- _. cbn. split; [reflexivity |].
      destruct (info_block_size i) as [| b] eqn:Hb.
      * rewrite Nat.mod_0_r in H1. contradiction.
      * split; [| lia].
        pose proof (Nat.div_mod (length input) (S b) ltac:(lia)). lia.
    + intros Hm.
      destruct (is_ecb (from_native (info_mode i))) eqn:Hx.
      * apply is_ecb_from_native in Hx. contradiction.
      * injection He as <- _. reflexivity.
  - intros c x Hm Hb. split.
    + apply update_ecb_misaligned; assumption.
    + apply update_ecb_empty; assumption.
Qed.

Lemma ecb_chunk_count_witness :
  crypt_engine.run (L := toy_copy) true padding_t.none [] [] encrypt_mode [Byte.x01] =
  Throw (usage_error
    "ecb cipher block: a valid input size must be dividable by block size").
Proof.
  refine (proj2 (proj1 (ecb_chunk_count toy_copy true padding_t.none [] [] encrypt_mode
            [Byte.x01] (toy_info true) _ eq_refl eq_refl) eq_refl _)).
  right. simpl. lia.
Defined.

(** C2 fails as stated: on an ECB cipher an empty streaming update is not
    rejected with FULL_BLOCK_EXPECTED; it succeeds with an empty output. *)
Lemma ecb_empty_update_succeeds :
  exists c, cipher.make (L := toy_copy) true = Ok c /\ cipher.update [] c = (Ok [], c).
Proof. eexists. split; reflexivity. Qed.

(** ** C3: the ECB chunk driver *)

Lemma sum_lengths_cons (w : buffer_t) ws :
  sum_lengths (w :: ws) = length w + sum_lengths ws.
Proof. reflexivity. Qed.

Lemma blocks_of_aligned bsize n src :
  length src = n * bsize ->
  Forall (fun b => length b = bsize) (blocks_of bsize n src) /\
  concat (blocks_of bsize n src) = src.
Proof.
  revert src. induction n as [| n IH]; intros src Hl.
  - destruct src; [split; constructor | discriminate].
  - cbn [blocks_of concat]. simpl in Hl.
    destruct (IH (skipn bsize src)) as [H1 H2]; [rewrite length_skipn; lia |].
    split.
    + constructor; [rewrite length_firstn; lia | exact H1].
    + rewrite H2. apply firstn_skipn.
Qed.

Lemma length_write_at_in (buf w : buffer_t) p :
  p + length w <= length buf -> length (write_at buf p w) = length buf.
Proof.
  intros H. unfold write_at. rewrite !length_app, length_firstn, length_skipn. lia.
Qed.

Lemma firstn_prefix (X Y : buffer_t) n : n = length X -> firstn n (X ++ Y) = X.
Proof.
  intros ->. rewrite firstn_app, firstn_all, Nat.sub_diag. cbn. apply app_nil_r.
Qed.

Lemma skipn_prefix (X Y : buffer_t) n : n = length X -> skipn n (X ++ Y) = Y.
Proof. intros ->. rewrite skipn_app, skipn_all, Nat.sub_diag. reflexivity. Qed.

Lemma write_at_nil (buf : buffer_t) p : write_at buf p [] = buf.
Proof. unfold write_at. cbn [app length]. rewrite Nat.add_0_r. apply firstn_skipn. Qed.

(** Two writes side by side are one write of both. *)
Lemma write_at_app (buf a b : buffer_t) p :
  write_at (write_at buf p a) (p + length a) b = write_at buf p (a ++ b).
Proof.
  destruct (Nat.le_gt_cases p (length buf)) as [Hp | Hp]; unfold write_at.
  2:{ assert (E1 : firstn p buf = buf) by (apply firstn_all2; lia).
      assert (E2 : skipn (p + length a) buf = []) by (apply skipn_all2; lia).
      assert (E3 : skipn (p + length (a ++ b)) buf = [])
        by (apply skipn_all2; rewrite length_app; lia).
      rewrite E1, E2, E3, !app_nil_r.
      rewrite firstn_all2 by (rewrite length_app; lia).
      rewrite skipn_all2 by (rewrite length_app; lia).
      rewrite app_nil_r, <- app_assoc. reflexivity. }
  assert (HX : length (firstn p buf) = p) by (rewrite length_firstn; lia).
  set (X := firstn p buf) in *. set (R := skipn (p + length a) buf).
  replace (X ++ a ++ R) with ((X ++ a) ++ R) by (rewrite app_assoc; reflexivity).
  rewrite firstn_prefix by (rewrite length_app; lia).
  rewrite skipn_app, (skipn_all2 (X ++ a)) by (rewrite length_app; lia).
  rewrite length_app, HX. cbn [app].
  replace (p + length a + length b - (p + length a)) with (length b) by lia.
  unfold R. rewrite skipn_skipn, length_app.
  replace (length b + (p + length a)) with (p + (length a + length b)) by lia.
  rewrite <- !app_assoc. reflexivity.
Qed.

Lemma update_loop_ok {L : mbedtls_lib} n bsize src (c : mbedtls_cipher_context_t L)
    mem base o c' ws :
  runs_ok mbedtls_cipher_update (fun r => 0 <= r)%Z c (blocks_of bsize n src) c' ws ->
  exists mem', cipher_impl.update_loop n bsize src c mem base o =
               (0%Z, c', mem', o + sum_lengths ws).
Proof.
  revert src c mem o ws. induction n as [| n IH]; intros src c mem o ws Hr.
  - inversion Hr; subst. exists mem. cbn. rewrite Nat.add_0_r. reflexivity.
  - inversion Hr as [| ? ? ? c1 r w ? ws' Hs Hg Hr']; subst.
    cbn [cipher_impl.update_loop]. rewrite Hs. cbv beta in Hg.
    destruct (Z.ltb_spec r 0); [lia |].
    destruct (IH _ _ (write_at mem (base + o) w) (o + length w) _ Hr') as [mem' ->].
    exists mem'. rewrite sum_lengths_cons, Nat.add_assoc. reflexivity.
Qed.

Lemma update_loop_fail {L : mbedtls_lib} pre n bsize src (c : mbedtls_cipher_context_t L)
    mem base o b post c1 ws r c2 w :
  blocks_of bsize n src = pre ++ b :: post ->
  runs_ok mbedtls_cipher_update (fun r => 0 <= r)%Z c pre c1 ws ->
  mbedtls_cipher_update c1 b = (r, c2, w) -> (r < 0)%Z ->
  exists mem', cipher_impl.update_loop n bsize src c mem base o =
               (r, c2, mem', o + sum_lengths ws).
Proof.
  revert n src c mem o ws. induction pre as [| b0 pre IH]; intros n src c mem o ws Hb Hr Hs Hn.
  - inversion Hr; subst. destruct n as [| n]; [discriminate |].
    cbn [blocks_of] in Hb. injection Hb as Hb0 _.
    cbn [cipher_impl.update_loop]. rewrite Hb0, Hs.
    destruct (Z.ltb_spec r 0); [| lia].
    eexists. cbn. rewrite Nat.add_0_r. reflexivity.
  - destruct n as [| n]; [discriminate |].
    cbn [blocks_of] in Hb. injection Hb as <- Hb.
    inversion Hr as [| ? ? ? c0 r0 w0 ? ws' Hs0 Hg Hr']; subst.
    cbn [cipher_impl.update_loop]. rewrite Hs0. cbv beta in Hg.
    destruct (Z.ltb_spec r0 0); [lia |].
    destruct (IH _ _ _ (write_at mem (base + o) w0) (o + length w0) _ Hb Hr' Hs Hn)
      as [mem' ->].
    exists mem'. rewrite sum_lengths_cons, Nat.add_assoc. reflexivity.
Qed.

(** The same failing run, with the caller's memory: the outputs of the
    blocks before the failing one, then the failing call's, written from
    [base + o] on. *)
Lemma update_loop_fail_mem {L : mbedtls_lib} pre n bsize src (c : mbedtls_cipher_context_t L)
    mem base o b post c1 ws r c2 w :
  blocks_of bsize n src = pre ++ b :: post ->
  runs_ok mbedtls_cipher_update (fun r => 0 <= r)%Z c pre c1 ws ->
  mbedtls_cipher_update c1 b = (r, c2, w) -> (r < 0)%Z ->
  cipher_impl.update_loop n bsize src c mem base o =
  (r, c2, write_at mem (base + o) (concat ws ++ w), o + sum_lengths ws).
Proof.
  revert n src c mem o ws. induction pre as [| b0 pre IH]; intros n src c mem o ws Hb Hr Hs Hn.
  - inversion Hr; subst. destruct n as [| n]; [discriminate |].
    cbn [blocks_of] in Hb. injection Hb as Hb0 _.
    cbn [cipher_impl.update_loop]. rewrite Hb0, Hs.
    destruct (Z.ltb_spec r 0); [| lia].
    cbn [concat app]. unfold sum_lengths. cbn [map list_sum]. rewrite Nat.add_0_r.
    reflexivity.
  - destruct n as [| n]; [discriminate |].
    cbn [blocks_of] in Hb. injection Hb as <- Hb.
    inversion Hr as [| ? ? ? c0 r0 w0 ? ws' Hs0 Hg Hr']; subst.
    cbn [cipher_impl.update_loop]. rewrite Hs0. cbv beta in Hg.
    destruct (Z.ltb_spec r0 0); [lia |].
    rewrite (IH _ _ _ (write_at mem (base + o) w0) (o + length w0) _ Hb Hr' Hs Hn).
    rewrite Nat.add_assoc, write_at_app, sum_lengths_cons, Nat.add_assoc.
    cbn [concat]. rewrite app_assoc. reflexivity.
Qed.

(** The driver on any codes: on a block-aligned input it feeds the input
    in slices of exactly one block, one [mbedtls_cipher_update] call each;
    if every call answers a non-negative code it returns 0 and sets
    [osize] to the sum of the written lengths; at the first call answering
    a negative code it stops, returns that code and leaves [osize] as it
    was.  A misaligned input is refused with FULL_BLOCK_EXPECTED before any
    call. *)
Lemma update_chunked_any_codes (L : mbedtls_lib) (s : cipher_impl.t L) input mem osize :
  let bsize := cipher_impl.block_size s in
  let blocks := blocks_of bsize (length input / bsize) input in
  0 < bsize ->
  (length input mod bsize <> 0 ->
     cipher_impl.update_chunked input mem 0 osize s =
     ((MBEDTLS_ERR_CIPHER_FULL_BLOCK_EXPECTED, mem, osize), s)) /\
  (length input mod bsize = 0 ->
     Forall (fun b => length b = bsize) blocks /\ concat blocks = input) /\
  (forall pre b post c1 ws r c2 w,
     length input mod bsize = 0 ->
     blocks = pre ++ b :: post ->
     runs_ok mbedtls_cipher_update (fun r => 0 <= r)%Z (cipher_impl.ctx_ s) pre c1 ws ->
     mbedtls_cipher_update c1 b = (r, c2, w) -> (r < 0)%Z ->
     exists mem', cipher_impl.update_chunked input mem 0 osize s =
                  ((r, mem', osize), cipher_impl.with_ctx s c2)) /\
  (forall c' ws,
     length input mod bsize = 0 ->
     runs_ok mbedtls_cipher_update (fun r => 0 <= r)%Z (cipher_impl.ctx_ s) blocks c' ws ->
     exists mem', cipher_impl.update_chunked input mem 0 osize s =
                  ((0%Z, mem', sum_lengths ws), cipher_impl.with_ctx s c')).
Proof.
  intros bsize blocks Hb. unfold cipher_impl.update_chunked. fold bsize.
  split; [| split; [| split]].
  - intros Hm. destruct (Nat.eqb_spec (length input mod bsize) 0); [contradiction |].
    reflexivity.
  - intros Hm. apply blocks_of_aligned.
    pose proof (Nat.div_mod (length input) bsize ltac:(lia)). lia.
  - intros pre b post c1 ws r c2 w Hm Hbl Hr Hs Hn.
    destruct (Nat.eqb_spec (length input mod bsize) 0); [| contradiction]. cbn [negb].
    destruct (update_loop_fail pre _ _ _ _ mem 0 0 _ _ _ _ _ _ _ Hbl Hr Hs Hn) as [mem' Hl].
    rewrite Hl. destruct (Z.ltb_spec r 0); [| lia]. eexists. reflexivity.
  - intros c' ws Hm Hr.
    destruct (Nat.eqb_spec (length input mod bsize) 0); [| contradiction]. cbn [negb].
    destruct (update_loop_ok _ _ _ _ mem 0 0 _ _ Hr) as [mem' Hl].
    rewrite Hl. eexists. reflexivity.
Qed.

Lemma runs_ok_weaken {L : mbedtls_lib} step (P Q : Z -> Prop)
    (c : mbedtls_cipher_context_t L) bl c' ws :
  (forall r, P r -> Q r) -> runs_ok step P c bl c' ws -> runs_ok step Q c bl c' ws.
Proof. intros H Hr. induction Hr; econstructor; eauto. Qed.

Lemma update_code_nonpos {L : mbedtls_lib} (c : mbedtls_cipher_context_t L) x r c' w :
  update_codes_mbedtls L -> mbedtls_cipher_update c x = (r, c', w) -> (r <= 0)%Z.
Proof.
  intros Hc. unfold mbedtls_cipher_update.
  destruct (update_fn _ _ _ _ _) as [[r0 x0] w0] eqn:E. intros H; injection H as <- _ _.
  exact (Hc _ _ _ _ _ _ _ E).
Qed.

(** C3: on mbedtls, whose update answers 0 or a negative code, the ECB
    chunk driver feeds a block-aligned input in slices of exactly one
    block, one [mbedtls_cipher_update] call each.  If every call answers 0
    it returns 0 and sets [osize] to the sum of the lengths the calls
    reported.  At the first call answering a non-zero code it stops: it
    makes no further call (the context is the one that call left),
    returns that very code and leaves [osize] as it was.  A misaligned
    input is refused with FULL_BLOCK_EXPECTED before any call. *)
Theorem update_chunked_driver (L : mbedtls_lib) (s : cipher_impl.t L) input mem osize :
  update_codes_mbedtls L ->
  let bsize := cipher_impl.block_size s in
  let blocks := blocks_of bsize (length input / bsize) input in
  0 < bsize ->
  (length input mod bsize <> 0 ->
     cipher_impl.update_chunked input mem 0 osize s =
     ((MBEDTLS_ERR_CIPHER_FULL_BLOCK_EXPECTED, mem, osize), s)) /\
  (length input mod bsize = 0 ->
     Forall (fun b => length b = bsize) blocks /\ concat blocks = input) /\
  (forall pre b post c1 ws r c2 w,
     length input mod bsize = 0 ->
     blocks = pre ++ b :: post ->
     runs_ok mbedtls_cipher_update (fun r => r = 0%Z) (cipher_impl.ctx_ s) pre c1 ws ->
     mbedtls_cipher_update c1 b = (r, c2, w) -> r <> 0%Z ->
     exists mem', cipher_impl.update_chunked input mem 0 osize s =
                  ((r, mem', osize), cipher_impl.with_ctx s c2)) /\
  (forall c' ws,
     length input mod bsize = 0 ->
     runs_ok mbedtls_cipher_update (fun r => r = 0%Z) (cipher_impl.ctx_ s) blocks c' ws ->
     exists mem', cipher_impl.update_chunked input mem 0 osize s =
                  ((0%Z, mem', sum_lengths ws), cipher_impl.with_ctx s c')).
Proof.
  intros Hcodes bsize blocks Hb.
  destruct (update_chunked_any_codes L s input mem osize Hb) as (H1 & H2 & H3 & H4).
  split; [exact H1 | split; [exact H2 | split]].
  - intros pre b post c1 ws r c2 w Hm Hbl Hr Hs Hn.
    apply (H3 pre b post c1 ws r c2 w Hm Hbl); [| exact Hs |].
    + apply (runs_ok_weaken _ (fun r => r = 0%Z)); [intros r0 ->; lia | exact Hr].
    + pose proof (update_code_nonpos _ _ _ _ _ Hcodes Hs). lia.
  - intros c' ws Hm Hr. apply H4; [exact Hm |].
    apply (runs_ok_weaken _ (fun r => r = 0%Z)); [intros r0 ->; lia | exact Hr].
Qed.

Lemma toy_update_codes : update_codes_mbedtls toy_copy.
Proof. intros info c r x code r' w H. cbn in H. injection H as <- _ _. lia. Qed.

Lemma update_chunked_driver_witness :
  cipher_impl.update_chunked [Byte.x01] [] 0 0 (toy_cipher (fun r x => (0%Z, S r, x)) true) =
  ((MBEDTLS_ERR_CIPHER_FULL_BLOCK_EXPECTED, [], 0),
   toy_cipher (fun r x => (0%Z, S r, x)) true).
Proof.
  exact (proj1 (update_chunked_driver toy_copy
                  (toy_cipher (fun r x => (0%Z, S r, x)) true) [Byte.x01] [] 0
                  toy_update_codes ltac:(cbv; lia)) ltac:(cbv; discriminate)).
Defined.

(** ** Calls keep the algorithm and the configuration *)

Lemma crypt_keeps {L : mbedtls_lib} (c : mbedtls_cipher_context_t L) ivb x r c' w :
  mbedtls_cipher_crypt c ivb x = (r, c', w) -> c' = with_run c (run c').
Proof.
  unfold mbedtls_cipher_crypt. destruct (crypt_fn _ _ _ _ _ _) as [[r0 x0] w0].
  intros H; injection H as <- <- <-. reflexivity.
Qed.

Lemma update_keeps {L : mbedtls_lib} (c : mbedtls_cipher_context_t L) x r c' w :
  mbedtls_cipher_update c x = (r, c', w) -> c' = with_run c (run c').
Proof.
  unfold mbedtls_cipher_update. destruct (update_fn _ _ _ _ _) as [[r0 x0] w0].
  intros H; injection H as <- <- <-. reflexivity.
Qed.

Lemma finish_keeps {L : mbedtls_lib} (c : mbedtls_cipher_context_t L) r c' w :
  mbedtls_cipher_finish c = (r, c', w) -> c' = with_run c (run c').
Proof.
  unfold mbedtls_cipher_finish. destruct (finish_fn _ _ _ _) as [[r0 x0] w0].
  intros H; injection H as <- <- <-. reflexivity.
Qed.

Lemma c_call_out_eq {L : mbedtls_lib} {A} tag f (s : cipher_impl.t L) r c (a : A) :
  f (cipher_impl.ctx_ s) = (r, c, a) ->
  cipher_impl.c_call_out tag f s =
  (if Z.eqb r 0 then Ok a else Throw (mbed_exception r tag), cipher_impl.with_ctx s c).
Proof.
  intros H. unfold cipher_impl.c_call_out, bind, cipher_impl.call. rewrite H.
  destruct (Z.eqb r 0); reflexivity.
Qed.

Lemma runs_ok_nil_inv {L : mbedtls_lib} step good (c c' : mbedtls_cipher_context_t L) ws :
  runs_ok step good c [] c' ws -> c' = c /\ ws = [].
Proof. intros H; inversion H; auto. Qed.

Lemma runs_ok_cons_inv {L : mbedtls_lib} step good (c c' : mbedtls_cipher_context_t L) b bl ws :
  runs_ok step good c (b :: bl) c' ws ->
  exists r c1 w ws', step c b = (r, c1, w) /\ good r /\
    runs_ok step good c1 bl c' ws' /\ ws = w :: ws'.
Proof. intros H; inversion H; subst; eauto 10. Qed.

(** ** The one-shot ECB loop *)

Lemma crypt_loop_S {L : mbedtls_lib} e k src pDes osize output (s : cipher_impl.t L) :
  crypt_engine.crypt_loop e (S k) src pDes osize output s =
  match mbedtls_cipher_crypt (cipher_impl.ctx_ s)
          (firstn (cipher_impl.iv_size s) (cipher_impl.iv_data_ s))
          (firstn (crypt_engine.block_size_ e) src) with
  | (r, c, w) =>
      if Z.eqb r 0
      then crypt_engine.crypt_loop e k (skipn (crypt_engine.block_size_ e) src)
             (pDes + crypt_engine.block_size_ e) (osize + length w)
             (write_at output pDes w) (cipher_impl.with_ctx s c)
      else (Throw (mbed_exception r "mbedtls_cipher_crypt"), cipher_impl.with_ctx s c)
  end.
Proof.
  cbn [crypt_engine.crypt_loop]. unfold bind at 1 2, get. cbn beta iota.
  destruct (mbedtls_cipher_crypt _ _ _) as [[r c] w] eqn:Hc.
  rewrite (c_call_out_eq _ (fun c => mbedtls_cipher_crypt c _ _) s r c w Hc).
  destruct (Z.eqb r 0); reflexivity.
Qed.

Lemma iv_size_with_run {L : mbedtls_lib} (s : cipher_impl.t L) x :
  cipher_impl.iv_size (cipher_impl.with_ctx s (with_run (cipher_impl.ctx_ s) x)) =
  cipher_impl.iv_size s.
Proof. reflexivity. Qed.

Lemma crypt_loop_fail {L : mbedtls_lib} e pre k src pDes osize output
    (s : cipher_impl.t L) ivb b post c1 ws r c2 w :
  firstn (cipher_impl.iv_size s) (cipher_impl.iv_data_ s) = ivb ->
  blocks_of (crypt_engine.block_size_ e) k src = pre ++ b :: post ->
  runs_ok (fun c x => mbedtls_cipher_crypt c ivb x) (fun r => r = 0%Z)
    (cipher_impl.ctx_ s) pre c1 ws ->
  mbedtls_cipher_crypt c1 ivb b = (r, c2, w) -> r <> 0%Z ->
  crypt_engine.crypt_loop e k src pDes osize output s =
  (Throw (mbed_exception r "mbedtls_cipher_crypt"), cipher_impl.with_ctx s c2).
Proof.
  revert k src pDes osize output s ws.
  induction pre as [| b0 pre IH]; intros k src pDes osize output s ws Hiv Hb Hr Hc Hn.
  - apply runs_ok_nil_inv in Hr as [-> ->]. destruct k as [| k]; [discriminate |].
    cbn [blocks_of] in Hb. injection Hb as Hb0 _. subst ivb.
    rewrite crypt_loop_S, Hb0, Hc. destruct (Z.eqb_spec r 0); [contradiction | reflexivity].
  - destruct k as [| k]; [discriminate |].
    cbn [blocks_of] in Hb. injection Hb as Hb0 Hb.
    apply runs_ok_cons_inv in Hr as (r0 & c0 & w0 & ws' & Hs0 & Hg & Hr' & ->).
    rewrite crypt_loop_S, Hb0, Hiv, Hs0. cbn beta in Hg. subst r0. cbn [Z.eqb].
    assert (Hiv' : firstn (cipher_impl.iv_size (cipher_impl.with_ctx s c0))
                     (cipher_impl.iv_data_ (cipher_impl.with_ctx s c0)) = ivb).
    { rewrite <- Hiv, (crypt_keeps _ _ _ _ _ _ Hs0). reflexivity. }
    rewrite (IH _ _ _ _ _ (cipher_impl.with_ctx s c0) _ Hiv' Hb Hr' Hc Hn). reflexivity.
Qed.

(** The chunk driver's code is 0 or negative, and [osize] is written only
    with code 0. *)
Lemma update_chunked_code {L : mbedtls_lib} (s : cipher_impl.t L) input mem base osize :
  let '((r, _, osz), _) := cipher_impl.update_chunked input mem base osize s in
  (r = 0 \/ r < 0)%Z /\ (r <> 0%Z -> osz = osize).
Proof.
  unfold cipher_impl.update_chunked.
  destruct (negb _); [split; [right; reflexivity | reflexivity] |].
  destruct (cipher_impl.update_loop _ _ _ _ _ _ _) as [[[r c'] mem'] o].
  destruct (Z.ltb_spec r 0).
  - split; [right; assumption | reflexivity].
  - split; [left; reflexivity | congruence].
Qed.

(** ** C10: the noexcept overloads *)

(** C10, as the code has it: the noexcept [update] and [finish] return a
    code and never throw.  On ECB, [update] returns the chunk driver's code,
    which is 0 or negative, and writes [output_size] only when that code is
    0; otherwise it hands [output_size] to [mbedtls_cipher_update], and
    [finish] hands it to [mbedtls_cipher_finish]: they return the
    primitive's code unchanged and [output_size] receives what the
    primitive stores there, on failure as well. *)
Theorem noexcept_overloads (L : mbedtls_lib) (s : cipher_impl.t L) input mem output_size :
  (is_ecb (cipher.block_mode s) = true ->
     cipher.update_raw input mem output_size s =
       cipher_impl.update_chunked input mem 0 output_size s /\
     (let '((r, _, osz), _) := cipher.update_raw input mem output_size s in
      (r = 0 \/ r < 0)%Z /\ (r <> 0%Z -> osz = output_size))) /\
  (is_ecb (cipher.block_mode s) = false ->
     let '(r, c, w) := mbedtls_cipher_update (cipher_impl.ctx_ s) input in
     cipher.update_raw input mem output_size s =
       ((r, write_at mem 0 w, length w), cipher_impl.with_ctx s c)) /\
  (let '(r, c, w) := mbedtls_cipher_finish (cipher_impl.ctx_ s) in
   cipher.finish_raw mem output_size s =
     ((r, write_at mem 0 w, length w), cipher_impl.with_ctx s c)).
Proof.
  split; [| split].
  - intros He. unfold cipher.update_raw. rewrite He. split; [reflexivity |].
    apply update_chunked_code.
  - intros He. unfold cipher.update_raw. rewrite He.
    destruct (mbedtls_cipher_update _ _) as [[r c] w]. reflexivity.
  - unfold cipher.finish_raw. destruct (mbedtls_cipher_finish _) as [[r c] w]. reflexivity.
Qed.

(** C10 fails as stated: on a CBC cipher whose update fails, the noexcept
    [update] leaves [output_size] at the 0 the primitive stored, not at the
    caller's 7. *)
Lemma raw_update_sets_size_on_failure :
  let '((r, _, osz), _) :=
    cipher.update_raw b4 (zeros 4) 7
      (toy_cipher upd_fail false) in
  r = MBEDTLS_ERR_CIPHER_BAD_INPUT_DATA /\ osz = 0.
Proof. cbv. split; reflexivity. Qed.

(** ** C5: failures of the owned-buffer operations *)

(** C5, as the code has it: the operations that return a buffer of their
    own throw on a primitive failure and return no buffer: the one-shot
    engine's [compute] (so [encrypt] and [decrypt]), the streaming
    [update] and [finish], [crypt] (whether [start], the update or the
    finish fails), [encrypt_aead] and [gcm_encryption_tag].
    [decrypt_aead] throws on every non-zero code except
    [MBEDTLS_ERR_CIPHER_AUTH_FAILED], the one failure returned with
    output, as [(false, plaintext)].  The caller-memory overloads differ:
    the noexcept [update] reports a failure by its code only (on ECB
    leaving [output_size] as it was), and on ECB, at a failing block after
    [pre], both it and the indexed [update] leave in the caller's memory
    the outputs of the blocks of [pre] and of the failing call, the
    indexed [update] then throwing. *)
Theorem failures_return_no_buffer (L : mbedtls_lib) (G : mbedtls_gcm_lib L)
    (s : cipher_impl.t L) (input mem : buffer_t) (output_size : nat) :
  let osize := length input + cipher_impl.block_size s + 32 in
  let ivb := firstn (cipher_impl.iv_size s) (cipher_impl.iv_data_ s) in
  (is_ecb (cipher.block_mode s) = true ->
   let '((r, _, _), s') := cipher_impl.update_chunked input (zeros osize) 0 osize s in
   r <> 0%Z -> cipher.update input s = (Throw (mbed_exception r "update"), s')) /\
  (is_ecb (cipher.block_mode s) = false ->
   let '(r, c, _) := mbedtls_cipher_update (cipher_impl.ctx_ s) input in
   r <> 0%Z ->
   cipher.update input s =
   (Throw (mbed_exception r "mbedtls_cipher_update"), cipher_impl.with_ctx s c)) /\
  (let '(r, c, _) := mbedtls_cipher_finish (cipher_impl.ctx_ s) in
   r <> 0%Z ->
   cipher.finish s =
   (Throw (mbed_exception r "mbedtls_cipher_finish"), cipher_impl.with_ctx s c)) /\
  (forall e, crypt_engine.chunks_ e = 1 ->
   let '(r, c, _) := mbedtls_cipher_crypt (cipher_impl.ctx_ s) ivb (crypt_engine.input_ e) in
   r <> 0%Z ->
   crypt_engine.compute e s =
   (Throw (mbed_exception r "mbedtls_cipher_crypt"), cipher_impl.with_ctx s c)) /\
  (forall e pre b post c1 ws r c2 w,
   crypt_engine.chunks_ e <> 1 ->
   blocks_of (crypt_engine.block_size_ e) (crypt_engine.chunks_ e) (crypt_engine.input_ e)
     = pre ++ b :: post ->
   runs_ok (fun c x => mbedtls_cipher_crypt c ivb x) (fun r => r = 0%Z)
     (cipher_impl.ctx_ s) pre c1 ws ->
   mbedtls_cipher_crypt c1 ivb b = (r, c2, w) -> r <> 0%Z ->
   crypt_engine.compute e s =
   (Throw (mbed_exception r "mbedtls_cipher_crypt"), cipher_impl.with_ctx s c2)) /\
  (forall e s1, cipher.start s = (Throw e, s1) -> cipher.crypt input s = (Throw e, s1)) /\
  (forall s1 r c w,
   cipher.start s = (Ok tt, s1) ->
   mbedtls_cipher_update (cipher_impl.ctx_ s1) input = (r, c, w) -> r <> 0%Z ->
   cipher.crypt input s =
   (Throw (mbed_exception r "mbedtls_cipher_update"), cipher_impl.with_ctx s1 c)) /\
  (forall s1 c1 w r c2 f,
   cipher.start s = (Ok tt, s1) ->
   mbedtls_cipher_update (cipher_impl.ctx_ s1) input = (0%Z, c1, w) ->
   mbedtls_cipher_finish c1 = (r, c2, f) -> r <> 0%Z ->
   cipher.crypt input s =
   (Throw (mbed_exception r "mbedtls_cipher_finish"), cipher_impl.with_ctx s1 c2)) /\
  (forall type iv key ad s1 s2 r c w,
   cipher_impl.setup type cipher_impl.init = (Ok tt, s1) ->
   cipher_impl.key key encrypt_mode s1 = (Ok tt, s2) ->
   mbedtls_cipher_auth_encrypt (cipher_impl.ctx_ s2) iv ad input 16 = (r, c, w) ->
   r <> 0%Z ->
   cipher.encrypt_aead (L := L) true type iv key ad input =
   Throw (mbed_exception r "mbedtls_cipher_auth_encrypt")) /\
  (forall type iv key ad tag s1 s2 r c w,
   cipher_impl.setup type cipher_impl.init = (Ok tt, s1) ->
   cipher_impl.key key decrypt_mode s1 = (Ok tt, s2) ->
   mbedtls_cipher_auth_decrypt (cipher_impl.ctx_ s2) iv ad input tag = (r, c, w) ->
   r <> 0%Z ->
   (r = MBEDTLS_ERR_CIPHER_AUTH_FAILED ->
    cipher.decrypt_aead (L := L) true type iv key ad tag input = Ok (false, w)) /\
   (r <> MBEDTLS_ERR_CIPHER_AUTH_FAILED ->
    cipher.decrypt_aead (L := L) true type iv key ad tag input =
    Throw (mbed_exception r "decrypt_aead"))) /\
  (forall n r c t,
   mbedtls_cipher_write_tag G (cipher_impl.ctx_ s) n = (r, c, t) -> r <> 0%Z ->
   cipher_rest.gcm_encryption_tag G n s =
   (Throw (mbed_exception r "mbedtls_cipher_write_tag"), cipher_impl.with_ctx s c)) /\
  (is_ecb (cipher.block_mode s) = true ->
   let '((r, _, osz), _) := cipher.update_raw input mem output_size s in
   r <> 0%Z -> osz = output_size) /\
  (forall pre b post c1 ws r c2 w,
   is_ecb (cipher.block_mode s) = true ->
   length input mod cipher.block_size s = 0 ->
   blocks_of (cipher.block_size s) (length input / cipher.block_size s) input
     = pre ++ b :: post ->
   runs_ok mbedtls_cipher_update (fun r => 0 <= r)%Z (cipher_impl.ctx_ s) pre c1 ws ->
   mbedtls_cipher_update c1 b = (r, c2, w) -> (r < 0)%Z ->
   cipher.update_raw input mem output_size s =
   ((r, write_at mem 0 (concat ws ++ w), output_size), cipher_impl.with_ctx s c2) /\
   (forall src in_index count output out_index,
    in_index + count <= length src -> firstn count (skipn in_index src) = input ->
    out_index + length (concat ws ++ w) <= length output ->
    cipher_rest.update_at src in_index count output out_index s =
    Some ((Throw (mbed_exception r "update"), write_at output out_index (concat ws ++ w)),
          cipher_impl.with_ctx s c2))).
Proof.
  intros osize ivb.
  split; [| split; [| split; [| split; [| split; [| split; [| split; [| split;
    [| split; [| split; [| split; [| split]]]]]]]]]]].
  - intros He. unfold cipher.update, bind at 1, get. cbn beta iota.
    rewrite He. fold osize.
    destruct (cipher_impl.update_chunked _ _ _ _ _) as [[[r o] osz] s'].
    intros Hr. destruct (Z.eqb_spec r 0); [contradiction | reflexivity].
  - intros He. unfold cipher.update, bind at 1, get. cbn beta iota. rewrite He.
    destruct (mbedtls_cipher_update _ _) as [[r c] w] eqn:Hu. intros Hr.
    unfold bind.
    rewrite (c_call_out_eq _ (fun c => mbedtls_cipher_update c input) s r c w Hu).
    destruct (Z.eqb_spec r 0); [contradiction | reflexivity].
  - destruct (mbedtls_cipher_finish _) as [[r c] w] eqn:Hf. intros Hr.
    unfold cipher.finish, bind, get. cbn beta iota.
    rewrite (c_call_out_eq _ mbedtls_cipher_finish s r c w Hf).
    destruct (Z.eqb_spec r 0); [contradiction | reflexivity].
  - intros e He. destruct (mbedtls_cipher_crypt _ _ _) as [[r c] w] eqn:Hc. intros Hr.
    unfold crypt_engine.compute. rewrite He. cbn [Nat.eqb].
    unfold bind, get. cbn beta iota.
    rewrite (c_call_out_eq _ (fun c => mbedtls_cipher_crypt c _ _) s r c w Hc).
    destruct (Z.eqb_spec r 0); [contradiction | reflexivity].
  - intros e pre b post c1 ws r c2 w He Hb Hr Hc Hn.
    unfold crypt_engine.compute. apply Nat.eqb_neq in He. rewrite He. unfold bind.
    rewrite (crypt_loop_fail e pre _ _ _ _ _ s ivb b post c1 ws r c2 w eq_refl Hb Hr Hc Hn).
    reflexivity.
  - intros e s1 Hs. unfold cipher.crypt, bind at 1. rewrite Hs. reflexivity.
  - intros s1 r c w Hs Hu Hr. unfold cipher.crypt, bind at 1. rewrite Hs.
    unfold bind, get. cbn beta iota.
    rewrite (c_call_out_eq _ (fun c => mbedtls_cipher_update c input) s1 r c w Hu).
    destruct (Z.eqb_spec r 0); [contradiction | reflexivity].
  - intros s1 c1 w r c2 f Hs Hu Hf Hr. unfold cipher.crypt, bind at 1. rewrite Hs.
    unfold bind, get. cbn beta iota.
    rewrite (c_call_out_eq _ (fun c => mbedtls_cipher_update c input) s1 0%Z c1 w Hu).
    cbn [Z.eqb]. unfold ret.
    rewrite (c_call_out_eq _ mbedtls_cipher_finish (cipher_impl.with_ctx s1 c1) r c2 f Hf).
    destruct (Z.eqb_spec r 0); [contradiction | reflexivity].
  - intros type iv key ad s1 s2 r c w H1 H2 H3 Hr. unfold cipher.encrypt_aead, bind.
    rewrite H1, H2. unfold get. cbn beta iota.
    unfold cipher_impl.c_call_out, bind, cipher_impl.call. rewrite H3.
    destruct (Z.eqb_spec r 0); [contradiction | reflexivity].
  - intros type iv key ad tag s1 s2 r c w H1 H2 H3 Hr. unfold cipher.decrypt_aead, bind.
    rewrite H1, H2. unfold get, cipher_impl.call. rewrite H3.
    rewrite resize_write0. split.
    + intros ->. rewrite Z.eqb_refl. reflexivity.
    + intros Ha. rewrite (proj2 (Z.eqb_neq _ _) Ha), (proj2 (Z.eqb_neq _ _) Hr).
      reflexivity.
  - intros n r c t Hw Hr. unfold cipher_rest.gcm_encryption_tag, bind. cbv zeta.
    rewrite (c_call_out_eq _ (fun c => mbedtls_cipher_write_tag G c n) s r c t Hw).
    destruct (Z.eqb_spec r 0); [contradiction | reflexivity].
  - intros He. unfold cipher.update_raw. rewrite He.
    pose proof (update_chunked_code s input mem 0 output_size) as H.
    destruct (cipher_impl.update_chunked _ _ _ _ _) as [[[r m] osz] s'].
    apply H.
  - intros pre b post c1 ws r c2 w He Hm Hb Hr Hu Hn.
    unfold cipher.block_size in Hm, Hb.
    assert (Hch : forall mem0 base0 osz0,
               cipher_impl.update_chunked input mem0 base0 osz0 s =
               ((r, write_at mem0 base0 (concat ws ++ w), osz0), cipher_impl.with_ctx s c2)).
    { intros mem0 base0 osz0. unfold cipher_impl.update_chunked. cbv zeta.
      rewrite Hm. cbn [Nat.eqb negb].
      rewrite (update_loop_fail_mem pre _ _ _ _ mem0 base0 0 b post c1 ws r c2 w Hb Hr Hu Hn).
      rewrite Nat.add_0_r. destruct (Z.ltb_spec r 0); [reflexivity | lia]. }
    split.
    + unfold cipher.update_raw. rewrite He. apply Hch.
    + intros src in_index count output out_index Hin Hv Hfit.
      unfold cipher_rest.update_at.
      replace (Nat.ltb (length src) (in_index + count)) with false
        by (symmetry; apply Nat.ltb_ge; exact Hin).
      cbn beta iota zeta. rewrite Hv, He, Hch.
      replace (Z.eqb r 0) with false by (symmetry; apply Z.eqb_neq; lia).
      unfold cipher_rest.within_output. cbn [fst snd].
      rewrite (length_write_at_in _ _ _ Hfit), Nat.leb_refl. reflexivity.
Qed.

(** C5 fails as stated: on the 2-byte-block ECB cipher whose second update
    fails, the caller-memory [update] on 4 bytes reports the failure, but
    the first block's output is left in the caller's memory; the indexed
    [update] on the same 4 bytes throws, also leaving it there. *)
Lemma raw_ecb_update_leaves_partial_output :
  (let '((r, mem', _), _) :=
     cipher.update_raw b4 (zeros 4) 0
       (toy_cipher upd_fail_second true) in
   r = MBEDTLS_ERR_CIPHER_BAD_INPUT_DATA /\ mem' = [Byte.x01; Byte.x02; Byte.x00; Byte.x00]) /\
  match cipher_rest.update_at b4 0 4 (zeros 4) 0 (toy_cipher upd_fail_second true) with
  | Some ((Throw e, output'), _) =>
      e = mbed_exception MBEDTLS_ERR_CIPHER_BAD_INPUT_DATA "update" /\
      output' = [Byte.x01; Byte.x02; Byte.x00; Byte.x00]
  | _ => False
  end.
Proof. cbv. split; split; reflexivity. Qed.

(** ** The IV re-installed by [start()] *)

(** C7 fails on the code for IVs kept on the heap: [iv(v)] installs [v]
    and remembers it; [start()] then re-installs the remembered IV as long
    as it fits [std::string]'s inline buffer (15 bytes), but a 16-byte IV
    (AES's) is read through freed storage, and what that storage shows is
    installed instead. *)
Lemma start_reinstalls_iv_through_freed_storage :
  let v15 := repeat Byte.x01 15 in
  let v16 := repeat Byte.x01 16 in
  run (cipher_impl.ctx_ (toy_iv_set v16)) = v16 /\
  cipher_impl.iv_data_ (toy_iv_set v16) = v16 /\
  run (cipher_impl.ctx_ (snd (cipher.start (toy_iv_set v16)))) = zeros 16 /\
  run (cipher_impl.ctx_ (snd (cipher.start (toy_iv_set v15)))) = v15.
Proof. vm_compute. repeat split. Qed.

(** ** Configuration calls *)

Lemma c_call_out_ok {L : mbedtls_lib} {A} tag f (s s' : cipher_impl.t L) (a : A) :
  cipher_impl.c_call_out tag f s = (Ok a, s') ->
  exists c, f (cipher_impl.ctx_ s) = (0%Z, c, a) /\ s' = cipher_impl.with_ctx s c.
Proof.
  unfold cipher_impl.c_call_out, bind, cipher_impl.call.
  destruct (f (cipher_impl.ctx_ s)) as [[r c] a'].
  destruct (Z.eqb r 0) eqn:E; intros H; inversion H; subst.
  apply Z.eqb_eq in E. subst. eauto.
Qed.

Lemma c_call_ok {L : mbedtls_lib} tag f (s s' : cipher_impl.t L) u :
  cipher_impl.c_call tag f s = (Ok u, s') ->
  exists c, f (cipher_impl.ctx_ s) = (0%Z, c) /\ s' = cipher_impl.with_ctx s c.
Proof.
  unfold cipher_impl.c_call. intros H. apply c_call_out_ok in H as (c & Hf & ->).
  exists c. split; [| reflexivity].
  destruct (f (cipher_impl.ctx_ s)) as [r c']. injection Hf as -> ->. reflexivity.
Qed.

Lemma setup_ok {L : mbedtls_lib} type (s0 s1 : cipher_impl.t L) u :
  cipher_impl.setup type s0 = (Ok u, s1) ->
  exists i, cipher_info_from_type L type = Some i /\
            cipher_info (cipher_impl.ctx_ s1) = Some i /\
            cipher_impl.iv_data_ s1 = cipher_impl.iv_data_ s0.
Proof.
  unfold cipher_impl.setup, bind at 1, lift, native_info.
  destruct (cipher_info_from_type L type) as [i |]; [| discriminate].
  intros H. apply c_call_ok in H as (c & Hc & ->). exists i.
  split; [reflexivity |]. split; [| reflexivity]. cbn.
  unfold mbedtls_cipher_setup in Hc. destruct (setup_fn L i) as [[r x] rn].
  destruct (Z.eqb r 0) eqn:E.
  - injection Hc as <-. reflexivity.
  - injection Hc as Hr _. subst r. discriminate.
Qed.

Lemma key_ok {L : mbedtls_lib} k m (s s' : cipher_impl.t L) u :
  cipher_impl.key k m s = (Ok u, s') ->
  cipher_info (cipher_impl.ctx_ s') = cipher_info (cipher_impl.ctx_ s) /\
  run (cipher_impl.ctx_ s') = run (cipher_impl.ctx_ s) /\
  cipher_impl.iv_data_ s' = cipher_impl.iv_data_ s.
Proof.
  unfold cipher_impl.key. intros H. apply c_call_ok in H as (c & Hc & ->).
  unfold mbedtls_cipher_setkey in Hc. destruct (setkey_fn _ _ _ _ _ _) as [r x].
  injection Hc as _ <-. auto.
Qed.

Lemma padding_ok {L : mbedtls_lib} p (s s' : cipher_impl.t L) u :
  cipher_impl.padding p s = (Ok u, s') ->
  cipher_info (cipher_impl.ctx_ s') = cipher_info (cipher_impl.ctx_ s) /\
  run (cipher_impl.ctx_ s') = run (cipher_impl.ctx_ s) /\
  cipher_impl.iv_data_ s' = cipher_impl.iv_data_ s.
Proof.
  destruct p; cbn [cipher_impl.padding];
    try (intros H; injection H as _ <-; auto; fail);
    intros H; apply c_call_ok in H as (c & Hc & ->);
    unfold mbedtls_cipher_set_padding_mode in Hc; destruct (set_padding_fn _ _ _ _) as [r x];
    injection Hc as _ <-; auto.
Qed.

Lemma iv_ok {L : mbedtls_lib} v (s s' : cipher_impl.t L) u :
  cipher_impl.iv v s = (Ok u, s') ->
  cipher_info (cipher_impl.ctx_ s') = cipher_info (cipher_impl.ctx_ s) /\
  cfg (cipher_impl.ctx_ s') = cfg (cipher_impl.ctx_ s) /\
  cipher_impl.iv_data_ s' = v.
Proof.
  unfold cipher_impl.iv. intros H. apply c_call_ok in H as (c & Hc & ->).
  cbn in Hc |- *. unfold mbedtls_cipher_set_iv in Hc. destruct (set_iv_fn _ _ _ _ _) as [r x].
  injection Hc as _ <-. auto.
Qed.

(** ** C9: [encrypt_aead] *)

(** C9: a successful [encrypt_aead] returns a 16-byte tag, whatever the
    algorithm, and as ciphertext exactly what the authenticated-encryption
    primitive wrote, whose length is at most the input length plus the
    block size; the primitive is asked for a 16-byte tag. *)
Theorem encrypt_aead_result (L : mbedtls_lib) type iv key ad input tag ct :
  aead_contract L ->
  cipher.encrypt_aead (L := L) true type iv key ad input = Ok (tag, ct) ->
  exists s c tw,
    (cipher_impl.setup type;; cipher_impl.key key encrypt_mode) cipher_impl.init
      = (Ok tt, s) /\
    mbedtls_cipher_auth_encrypt (cipher_impl.ctx_ s) iv ad input 16 = (0%Z, c, (ct, tw)) /\
    length tag = 16 /\ length ct <= length input + cipher_impl.block_size s.
Proof.
  intros Hc. unfold cipher.encrypt_aead, bind.
  destruct (cipher_impl.setup type cipher_impl.init) as [[[] | e] s1] eqn:H1;
    [| discriminate].
  destruct (cipher_impl.key key encrypt_mode s1) as [[[] | e] s2] eqn:H2;
    [| discriminate].
  unfold get. cbn beta iota.
  destruct (mbedtls_cipher_auth_encrypt (cipher_impl.ctx_ s2) iv ad input 16)
    as [[r c] [w tw]] eqn:H3.
  unfold cipher_impl.c_call_out, bind, cipher_impl.call. rewrite H3.
  destruct (Z.eqb_spec r 0) as [-> |]; [| discriminate].
  unfold ret. cbn [fst]. intros H; injection H as <- <-.
  destruct (setup_ok _ _ _ _ H1) as (i & _ & Hi & _).
  destruct (key_ok _ _ _ _ _ H2) as (Hk & _ & _).
  pose proof H3 as H3'.
  unfold mbedtls_cipher_auth_encrypt in H3. rewrite Hk, Hi in H3.
  destruct (auth_encrypt_fn _ _ _ _ _ _ _ _) as [[[r x] w'] t] eqn:H4.
  injection H3 as -> _ -> ->.
  destruct (Hc _ _ _ _ _ _ _ _ _ _ H4) as [Ht Hw].
  exists s2, c, tw. rewrite resize_write0. split; [reflexivity |].
  split; [exact H3' |]. split.
  - rewrite length_write_at_in; rewrite length_zeros; lia.
  - unfold cipher_impl.block_size. rewrite Hk, Hi. exact Hw.
Qed.

Lemma toy_aead_contract : aead_contract toy_copy.
Proof.
  intros info c r iv ad x n r' w t H. cbn in H. injection H as _ <- <-.
  rewrite length_zeros. lia.
Qed.

Lemma encrypt_aead_result_witness :
  cipher.encrypt_aead (L := toy_copy) true true [] [] [] b4 = Ok (zeros 16, b4) /\
  exists s c tw,
    (cipher_impl.setup (L := toy_copy) true;; cipher_impl.key [] encrypt_mode)
      cipher_impl.init
      = (Ok tt, s) /\
    mbedtls_cipher_auth_encrypt (cipher_impl.ctx_ s) [] [] b4 16 = (0%Z, c, (b4, tw)) /\
    length (zeros 16) = 16 /\ length b4 <= length b4 + cipher_impl.block_size s.
Proof.
  split; [reflexivity |].
  apply (encrypt_aead_result toy_copy true [] [] [] b4 (zeros 16) b4
           toy_aead_contract eq_refl).
Defined.

(** ** Streaming calls touch only the running part *)

Lemma run_only_refl {L : mbedtls_lib} (s : cipher_impl.t L) : run_only s s.
Proof. split; [destruct (cipher_impl.ctx_ s); reflexivity | reflexivity]. Qed.

Lemma run_only_trans {L : mbedtls_lib} (s1 s2 s3 : cipher_impl.t L) :
  run_only s1 s2 -> run_only s2 s3 -> run_only s1 s3.
Proof.
  intros [H1 H1'] [H2 H2']. split; [| congruence].
  rewrite H2, H1. reflexivity.
Qed.

Lemma bind_run_only {L : mbedtls_lib} {A B} (m : stM (cipher_impl.t L) A)
    (k : A -> stM (cipher_impl.t L) B) s o s' :
  (forall s o s', m s = (o, s') -> run_only s s') ->
  (forall a s o s', k a s = (o, s') -> run_only s s') ->
  bind m k s = (o, s') -> run_only s s'.
Proof.
  intros Hm Hk. unfold bind. destruct (m s) as [[a | e] s1] eqn:E; intros H.
  - exact (run_only_trans _ _ _ (Hm _ _ _ E) (Hk _ _ _ _ H)).
  - injection H as _ <-. exact (Hm _ _ _ E).
Qed.

Lemma ret_run_only {L : mbedtls_lib} {A} (a : A) (s : cipher_impl.t L) o s' :
  ret a s = (o, s') -> run_only s s'.
Proof. intros H; injection H as _ <-. apply run_only_refl. Qed.

Lemma c_call_out_run_only {L : mbedtls_lib} {A} tag f (s : cipher_impl.t L) (o : outcome A) s' :
  (forall c r c' a, f c = (r, c', a) -> c' = with_run c (run c')) ->
  cipher_impl.c_call_out tag f s = (o, s') -> run_only s s'.
Proof.
  intros Hf. unfold cipher_impl.c_call_out, bind, cipher_impl.call.
  destruct (f (cipher_impl.ctx_ s)) as [[r c] a] eqn:E.
  assert (Hr : run_only s (cipher_impl.with_ctx s c)) by (split; [exact (Hf _ _ _ _ E) | reflexivity]).
  destruct (Z.eqb r 0); intros H; injection H as _ <-; exact Hr.
Qed.

Lemma update_loop_keeps {L : mbedtls_lib} n bsize src (c : mbedtls_cipher_context_t L)
    mem base o r c' mem' o' :
  cipher_impl.update_loop n bsize src c mem base o = (r, c', mem', o') ->
  c' = with_run c (run c').
Proof.
  revert src c mem o. induction n as [| n IH]; intros src c mem o.
  - cbn. intros H; injection H as _ <- _ _. destruct c; reflexivity.
  - cbn [cipher_impl.update_loop].
    destruct (mbedtls_cipher_update c (firstn bsize src)) as [[r1 c1] w] eqn:E.
    pose proof (update_keeps _ _ _ _ _ E) as Hc1.
    destruct (Z.ltb r1 0).
    + intros H; injection H as _ <- _ _. exact Hc1.
    + intros H. rewrite (IH _ _ _ _ H), Hc1. reflexivity.
Qed.

Lemma update_chunked_run_only {L : mbedtls_lib} input mem base osize (s : cipher_impl.t L) r mem' o s' :
  cipher_impl.update_chunked input mem base osize s = ((r, mem', o), s') -> run_only s s'.
Proof.
  unfold cipher_impl.update_chunked.
  destruct (negb _).
  - intros H; injection H as _ _ _ <-. apply run_only_refl.
  - destruct (cipher_impl.update_loop _ _ _ _ _ _ _) as [[[r1 c'] m1] o1] eqn:E.
    pose proof (update_loop_keeps _ _ _ _ _ _ _ _ _ _ _ E) as Hc.
    destruct (Z.ltb r1 0); intros H; injection H as _ _ _ <-;
      (split; [exact Hc | reflexivity]).
Qed.

Lemma update_run_only {L : mbedtls_lib} x (s : cipher_impl.t L) o s' :
  cipher.update x s = (o, s') -> run_only s s'.
Proof.
  unfold cipher.update. apply bind_run_only.
  - intros s0 o0 s0' H; injection H as _ <-. apply run_only_refl.
  - intros s0 s1 o1 s1'. destruct (is_ecb (cipher.block_mode s0)).
    + destruct (cipher_impl.update_chunked _ _ _ _ s1) as [[[r m] osz] s2] eqn:E.
      pose proof (update_chunked_run_only _ _ _ _ _ _ _ _ _ E) as Hro.
      destruct (Z.eqb r 0); intros H; injection H as _ <-; exact Hro.
    + apply bind_run_only.
      * intros s2 o2 s2'. apply c_call_out_run_only. intros c r c' a. apply update_keeps.
      * intros a. apply ret_run_only.
Qed.

Lemma finish_run_only {L : mbedtls_lib} (s : cipher_impl.t L) o s' :
  cipher.finish s = (o, s') -> run_only s s'.
Proof.
  unfold cipher.finish. apply bind_run_only.
  - intros s0 o0 s0' H; injection H as _ <-. apply run_only_refl.
  - intros s0 s1 o1 s1'. apply bind_run_only.
    + intros s2 o2 s2'. apply c_call_out_run_only. intros c r c' a. apply finish_keeps.
    + intros a. apply ret_run_only.
Qed.

(** ** [start()] *)

Lemma start_eq {L : mbedtls_lib} (s : cipher_impl.t L) :
  cipher.start s =
  let c := cipher_impl.ctx_ s in
  let v := cipher_impl.iv_data_ s in
  let seen := if Nat.leb (length v) string_inline_capacity then v else freed_read L v in
  let '(a, r1) := set_iv_fn L (cipher_info c) (cfg c) (run c) seen in
  if Z.eqb a 0 then
    let '(b, r2) := reset_fn L (cipher_info c) (cfg c) r1 in
    (if Z.eqb b 0 then Ok tt else Throw (mbed_exception b "mbedtls_cipher_reset"),
     {| cipher_impl.ctx_ := with_run c r2; cipher_impl.iv_data_ := v |})
  else
    (Throw (mbed_exception a "mbedtls_cipher_set_iv"),
     {| cipher_impl.ctx_ := with_run c r1; cipher_impl.iv_data_ := v |}).
Proof.
  unfold cipher.start, cipher_impl.reset_last_iv, cipher_impl.iv, cipher_impl.c_call,
    cipher_impl.c_call_out, cipher_impl.call, bind, get, ret, throw,
    mbedtls_cipher_set_iv, mbedtls_cipher_reset.
  cbn beta iota zeta.
  destruct (set_iv_fn _ _ _ _ _) as [a r1]. destruct (Z.eqb a 0); [| reflexivity].
  cbn. destruct (reset_fn _ _ _ _) as [b r2]. destruct (Z.eqb b 0); reflexivity.
Qed.

(** ** Successful runs, read backwards *)

Lemma update_loop_inv {L : mbedtls_lib} n bsize src (c : mbedtls_cipher_context_t L)
    mem base o r c' mem' o' :
  cipher_impl.update_loop n bsize src c mem base o = (r, c', mem', o') -> (0 <= r)%Z ->
  exists ws, runs_ok mbedtls_cipher_update (fun r => 0 <= r)%Z c (blocks_of bsize n src) c' ws /\
             o' = o + sum_lengths ws.
Proof.
  revert src c mem o. induction n as [| n IH]; intros src c mem o.
  - cbn. intros H _; injection H as _ <- _ <-. exists []. split; [constructor | cbn; lia].
  - cbn [cipher_impl.update_loop blocks_of].
    destruct (mbedtls_cipher_update c (firstn bsize src)) as [[r1 c1] w] eqn:E.
    destruct (Z.ltb_spec r1 0) as [Hlt | Hge].
    + intros H Hr; injection H as <- _ _ _. lia.
    + intros H Hr. destruct (IH _ _ _ _ H Hr) as (ws & Hws & ->).
      exists (w :: ws). split.
      * apply (runs_cons _ _ _ _ _ _ _ _ _ _ E); assumption.
      * rewrite sum_lengths_cons. lia.
Qed.

Lemma update_chunked_inv {L : mbedtls_lib} input mem osize (s : cipher_impl.t L) mem' o s' :
  cipher_impl.update_chunked input mem 0 osize s = ((0%Z, mem', o), s') ->
  exists ws, runs_ok mbedtls_cipher_update (fun r => 0 <= r)%Z (cipher_impl.ctx_ s)
               (blocks_of (cipher_impl.block_size s)
                  (length input / cipher_impl.block_size s) input)
               (cipher_impl.ctx_ s') ws /\
             o = sum_lengths ws.
Proof.
  unfold cipher_impl.update_chunked. destruct (negb _); [discriminate |].
  destruct (cipher_impl.update_loop _ _ _ _ _ _ _) as [[[r1 c'] m1] o1] eqn:E.
  destruct (Z.ltb_spec r1 0) as [Hlt | Hge].
  - intros H; injection H as Hr _ _ _. lia.
  - intros H; injection H as _ <- <-.
    destruct (update_loop_inv _ _ _ _ _ _ _ _ _ _ _ E ltac:(lia)) as (ws & Hws & ->).
    exists ws. split; [exact Hws | reflexivity].
Qed.

Lemma crypt_loop_inv {L : mbedtls_lib} e k src pDes osize output (s : cipher_impl.t L)
    ivb o' out' s' :
  firstn (cipher_impl.iv_size s) (cipher_impl.iv_data_ s) = ivb ->
  crypt_engine.crypt_loop e k src pDes osize output s = (Ok (o', out'), s') ->
  exists ws,
    runs_ok (fun c x => mbedtls_cipher_crypt c ivb x) (fun r => r = 0%Z)
      (cipher_impl.ctx_ s) (blocks_of (crypt_engine.block_size_ e) k src)
      (cipher_impl.ctx_ s') ws /\
    o' = osize + sum_lengths ws /\
    out' = write_blocks output pDes (crypt_engine.block_size_ e) ws /\
    run_only s s'.
Proof.
  revert src pDes osize output s. induction k as [| k IH]; intros src pDes osize output s Hiv.
  - cbn. intros H; injection H as <- <- <-. exists [].
    split; [constructor |]. split; [cbn; lia |]. split; [reflexivity | apply run_only_refl].
  - rewrite crypt_loop_S, Hiv. cbn [blocks_of].
    destruct (mbedtls_cipher_crypt _ ivb _) as [[r c] w] eqn:E.
    destruct (Z.eqb_spec r 0) as [-> |]; [| discriminate]. intros H.
    pose proof (crypt_keeps _ _ _ _ _ _ E) as Hc.
    assert (Hiv' : firstn (cipher_impl.iv_size (cipher_impl.with_ctx s c))
                     (cipher_impl.iv_data_ (cipher_impl.with_ctx s c)) = ivb).
    { rewrite <- Hiv, Hc. reflexivity. }
    destruct (IH _ _ _ _ _ Hiv' H) as (ws & Hws & Ho & Hout & Hro).
    exists (w :: ws). split; [| split; [| split]].
    + exact (runs_cons _ _ _ _ _ _ _ _ _ _ E eq_refl Hws).
    + rewrite Ho, sum_lengths_cons. lia.
    + exact Hout.
    + refine (run_only_trans _ _ _ _ Hro). split; [exact Hc | reflexivity].
Qed.

Lemma runs_ok_sum_le {L : mbedtls_lib} step good (f : buffer_t -> nat)
    (c0 c c' : mbedtls_cipher_context_t L) bl ws :
  (forall c1 b r c2 w, cipher_info c1 = cipher_info c0 -> step c1 b = (r, c2, w) -> good r ->
     length w <= f b /\ cipher_info c2 = cipher_info c1) ->
  cipher_info c = cipher_info c0 -> runs_ok step good c bl c' ws ->
  sum_lengths ws <= list_sum (map f bl).
Proof.
  intros Hs Hc Hr. revert Hc. induction Hr as [| c b bl c1 r w c2 ws E Hg Hr IH]; intros Hc.
  - exact (le_n 0).
  - destruct (Hs _ _ _ _ _ Hc E Hg) as [Hl Hc1].
    rewrite sum_lengths_cons.
    change (list_sum (map f (b :: bl))) with (f b + list_sum (map f bl)).
    specialize (IH (eq_trans Hc1 Hc)). lia.
Qed.

Lemma sum_blocks_le bsize n src : sum_lengths (blocks_of bsize n src) <= length src.
Proof.
  revert src. induction n as [| n IH]; intros src; cbn [blocks_of].
  - cbn. lia.
  - rewrite sum_lengths_cons. specialize (IH (skipn bsize src)).
    rewrite <- (firstn_skipn bsize src) at 3. rewrite length_app. lia.
Qed.

Lemma configure_ok {L : mbedtls_lib} type pad iv key m (s : cipher_impl.t L) :
  configured type pad iv key m s ->
  exists i, cipher_info_from_type L type = Some i /\
            cipher_info (cipher_impl.ctx_ s) = Some i /\ cipher_impl.iv_data_ s = iv.
Proof.
  unfold configured, crypt_engine.configure, bind. intros H.
  destruct (cipher_impl.setup type cipher_impl.init) as [[[] | e] s1] eqn:H1;
    [| discriminate].
  destruct (cipher_impl.padding pad s1) as [[[] | e] s2] eqn:H2; [| discriminate].
  destruct (cipher_impl.iv iv s2) as [[[] | e] s3] eqn:H3; [| discriminate].
  destruct (setup_ok _ _ _ _ H1) as (i & Hi & Hc1 & _).
  destruct (padding_ok _ _ _ _ H2) as (Hc2 & _ & _).
  destruct (iv_ok _ _ _ _ H3) as (Hc3 & _ & Hv3).
  destruct (key_ok _ _ _ _ _ H) as (Hc4 & _ & Hv4).
  exists i. split; [exact Hi |]. split; [congruence | congruence].
Qed.

Lemma compute_single_inv {L : mbedtls_lib} e (s : cipher_impl.t L) out s' :
  crypt_engine.chunks_ e = 1 -> crypt_engine.compute e s = (Ok out, s') ->
  exists c,
    mbedtls_cipher_crypt (cipher_impl.ctx_ s)
      (firstn (cipher_impl.iv_size s) (cipher_impl.iv_data_ s)) (crypt_engine.input_ e)
      = (0%Z, c, out) /\
    s' = cipher_impl.with_ctx s c.
Proof.
  intros He. unfold crypt_engine.compute. rewrite He. cbn [Nat.eqb].
  unfold bind, get. cbn beta iota zeta.
  destruct (cipher_impl.c_call_out _ _ s) as [[w | ex] s2] eqn:E; [| discriminate].
  apply c_call_out_ok in E as (c & Hc & ->).
  unfold ret. intros H; injection H as <- <-. rewrite resize_write0.
  exists c. split; [exact Hc | reflexivity].
Qed.

Lemma compute_multi_inv {L : mbedtls_lib} e (s : cipher_impl.t L) out s' :
  crypt_engine.chunks_ e <> 1 -> crypt_engine.compute e s = (Ok out, s') ->
  exists ws,
    runs_ok (fun c x => mbedtls_cipher_crypt c
                          (firstn (cipher_impl.iv_size s) (cipher_impl.iv_data_ s)) x)
      (fun r => r = 0%Z) (cipher_impl.ctx_ s)
      (blocks_of (crypt_engine.block_size_ e) (crypt_engine.chunks_ e) (crypt_engine.input_ e))
      (cipher_impl.ctx_ s') ws /\
    out = resize (sum_lengths ws)
            (write_blocks (zeros (crypt_engine.output_size e)) 0
               (crypt_engine.block_size_ e) ws) /\
    run_only s s'.
Proof.
  intros He. unfold crypt_engine.compute. apply Nat.eqb_neq in He. rewrite He.
  cbn zeta. unfold bind.
  destruct (crypt_engine.crypt_loop e (crypt_engine.chunks_ e) (crypt_engine.input_ e) 0 0
              (zeros (crypt_engine.output_size e)) s) as [[[o out'] | ex] s2] eqn:E;
    [| discriminate].
  unfold ret. intros H; injection H as <- <-.
  destruct (crypt_loop_inv _ _ _ _ _ _ _ _ _ _ _ eq_refl E) as (ws & Hws & -> & -> & Hro).
  exists ws. split; [exact Hws |]. split; [reflexivity | exact Hro].
Qed.

Lemma run_ok_inv {L : mbedtls_lib} type pad iv key m input out :
  crypt_engine.run (L := L) type pad iv key m input = Ok out ->
  exists i s s',
    cipher_info_from_type L type = Some i /\ configured type pad iv key m s /\
    (is_ecb (from_native (info_mode i)) = true ->
       length input <> 0 /\ length input mod info_block_size i = 0) /\
    crypt_engine.compute
      {| crypt_engine.block_mode_ := from_native (info_mode i);
         crypt_engine.block_size_ := info_block_size i;
         crypt_engine.input_size_ := length input;
         crypt_engine.chunks_ := if is_ecb (from_native (info_mode i))
                                 then length input / info_block_size i else 1;
         crypt_engine.input_ := input |} s = (Ok out, s').
Proof.
  unfold crypt_engine.run, bind.
  destruct (cipher_info_from_type L type) as [i |] eqn:Hi.
  2: { unfold crypt_engine.make, bind, lift, cipher_block_mode, native_info.
       rewrite Hi. discriminate. }
  rewrite (make_spec type pad iv key m input _ i Hi).
  destruct (crypt_engine.configure type pad iv key m cipher_impl.init) as [[[] | ex] s] eqn:Hc;
    [| discriminate].
  destruct (is_ecb (from_native (info_mode i))) eqn:Hx.
  - destruct (orb _ _) eqn:Hb; [discriminate |].
    apply orb_false_iff in Hb as [Hb1 Hb2].
    destruct (crypt_engine.compute _ s) as [o s'] eqn:Hcomp. cbn [fst]. intros ->.
    exists i, s, s'. split; [reflexivity |]. split; [exact Hc |].
    split; [| rewrite Hx; exact Hcomp].
    intros _. apply Nat.eqb_neq in Hb1. apply negb_false_iff, Nat.eqb_eq in Hb2. auto.
  - destruct (crypt_engine.compute _ s) as [o s'] eqn:Hcomp. cbn [fst]. intros ->.
    exists i, s, s'. split; [reflexivity |]. split; [exact Hc |].
    split; [| rewrite Hx; exact Hcomp].
    intros Hf; congruence.
Qed.

Lemma crypt_fn_of {L : mbedtls_lib} (c : mbedtls_cipher_context_t L) i ivb x r c' w :
  cipher_info c = Some i -> mbedtls_cipher_crypt c ivb x = (r, c', w) ->
  crypt_fn L (Some i) (cfg c) (run c) ivb x = (r, run c', w).
Proof.
  intros Hi. unfold mbedtls_cipher_crypt. rewrite Hi.
  destruct (crypt_fn _ _ _ _ _ _) as [[r0 x0] w0]. intros H; injection H as <- <- <-.
  reflexivity.
Qed.

Lemma update_fn_of {L : mbedtls_lib} (c : mbedtls_cipher_context_t L) i x r c' w :
  cipher_info c = Some i -> mbedtls_cipher_update c x = (r, c', w) ->
  update_fn L (Some i) (cfg c) (run c) x = (r, run c', w).
Proof.
  intros Hi. unfold mbedtls_cipher_update. rewrite Hi.
  destruct (update_fn _ _ _ _ _) as [[r0 x0] w0]. intros H; injection H as <- <- <-.
  reflexivity.
Qed.

Lemma finish_fn_of {L : mbedtls_lib} (c : mbedtls_cipher_context_t L) i r c' w :
  cipher_info c = Some i -> mbedtls_cipher_finish c = (r, c', w) ->
  finish_fn L (Some i) (cfg c) (run c) = (r, run c', w).
Proof.
  intros Hi. unfold mbedtls_cipher_finish. rewrite Hi.
  destruct (finish_fn _ _ _ _) as [[r0 x0] w0]. intros H; injection H as <- <- <-.
  reflexivity.
Qed.

Lemma sum_lengths_single (w : buffer_t) : sum_lengths [w] = length w.
Proof. unfold sum_lengths. cbn. lia. Qed.

(** ** C6: output sizing *)

(** C6: the one-shot engine, the streaming [update] and [finish] allocate
    [input + block_size + 32] bytes (32 + block size for [finish]) and
    return exactly as many bytes as the primitive reported: the output of
    the single call, or on the multi-block ECB path the sum of the lengths
    reported by the per-block calls.  For a primitive that keeps to
    mbedtls' bounds on written lengths, the result is at most
    [input + block_size + 32] bytes long. *)
Theorem output_sizing (L : mbedtls_lib) :
  output_contract L ->
  (forall type pad iv key m input out,
     crypt_engine.run (L := L) type pad iv key m input = Ok out ->
     exists i s c ws,
       cipher_info_from_type L type = Some i /\
       configured type pad iv key m s /\
       runs_ok (fun c x => mbedtls_cipher_crypt c (firstn (info_iv_size i) iv) x)
         (fun r => r = 0%Z) (cipher_impl.ctx_ s)
         (if is_ecb (from_native (info_mode i))
          then blocks_of (info_block_size i) (length input / info_block_size i) input
          else [input]) c ws /\
       length out = sum_lengths ws /\
       length out <= length input + info_block_size i + 32) /\
  (forall (s : cipher_impl.t L) i x out s',
     cipher_info (cipher_impl.ctx_ s) = Some i ->
     cipher.update x s = (Ok out, s') ->
     (if is_ecb (from_native (info_mode i))
      then exists ws,
        runs_ok mbedtls_cipher_update (fun r => 0 <= r)%Z (cipher_impl.ctx_ s)
          (blocks_of (info_block_size i) (length x / info_block_size i) x)
          (cipher_impl.ctx_ s') ws /\
        length out = sum_lengths ws
      else mbedtls_cipher_update (cipher_impl.ctx_ s) x = (0%Z, cipher_impl.ctx_ s', out)) /\
     length out <= length x + info_block_size i + 32) /\
  (forall (s : cipher_impl.t L) i out s',
     cipher_info (cipher_impl.ctx_ s) = Some i ->
     cipher.finish s = (Ok out, s') ->
     mbedtls_cipher_finish (cipher_impl.ctx_ s) = (0%Z, cipher_impl.ctx_ s', out) /\
     length out <= info_block_size i + 32).
Proof.
  intros (Hupd & Hupd_ecb & Hfin & Hcr & Hcr_ecb). split; [| split].
  - intros type pad iv key m input out H.
    destruct (run_ok_inv _ _ _ _ _ _ _ H) as (i & s & s' & Hi & Hconf & Hal & Hcomp).
    destruct (configure_ok _ _ _ _ _ _ Hconf) as (i' & Hi' & Hci & Hv).
    rewrite Hi in Hi'. injection Hi' as <-.
    assert (Hivb : firstn (cipher_impl.iv_size s) (cipher_impl.iv_data_ s) =
                   firstn (info_iv_size i) iv)
      by (unfold cipher_impl.iv_size; rewrite Hci, Hv; reflexivity).
    destruct (Nat.eqb_spec (if is_ecb (from_native (info_mode i))
                            then length input / info_block_size i else 1) 1) as [H1 | H1].
    + destruct ((fun Hk => compute_single_inv _ _ _ _ Hk Hcomp) H1) as (c & Hc & _).
      cbn [crypt_engine.input_] in Hc. rewrite Hivb in Hc.
      exists i, s, c, [out]. split; [exact Hi |]. split; [exact Hconf |].
      split; [| split; [symmetry; apply sum_lengths_single |]].
      * assert (Hb : (if is_ecb (from_native (info_mode i))
                      then blocks_of (info_block_size i) (length input / info_block_size i) input
                      else [input]) = [input]).
        { destruct (is_ecb (from_native (info_mode i))); [| reflexivity].
          rewrite H1. cbn [blocks_of]. rewrite firstn_all2; [reflexivity |].
          destruct (Hal eq_refl) as [_ Hm].
          pose proof (Nat.div_mod (length input) (info_block_size i)) as Hd.
          destruct (info_block_size i); [rewrite Nat.mod_0_r in Hm; lia |].
          rewrite H1, Hm in Hd. lia. }
        rewrite Hb. exact (runs_cons _ _ _ _ _ _ _ _ _ _ Hc eq_refl (runs_nil _ _ _)).
      * pose proof (Hcr _ _ _ _ _ _ _ (crypt_fn_of _ _ _ _ _ _ _ Hci Hc)). lia.
    + destruct ((fun Hk => compute_multi_inv _ _ _ _ Hk Hcomp) H1) as (ws & Hws & -> & _).
      cbn [crypt_engine.input_ crypt_engine.chunks_ crypt_engine.block_size_] in Hws.
      rewrite Hivb in Hws.
      destruct (is_ecb (from_native (info_mode i))) eqn:Hx0; [| contradiction].
      pose proof Hx0 as Hx. apply is_ecb_from_native in Hx.
      exists i, s, (cipher_impl.ctx_ s'), ws. split; [exact Hi |]. split; [exact Hconf |].
      split; [rewrite Hx0; exact Hws |]. rewrite length_resize. split; [reflexivity |].
      assert (Hstep : forall (c1 : mbedtls_cipher_context_t L) b r c2 w,
                 cipher_info c1 = cipher_info (cipher_impl.ctx_ s) ->
                 mbedtls_cipher_crypt c1 (firstn (info_iv_size i) iv) b = (r, c2, w) ->
                 r = 0%Z -> length w <= length b /\ cipher_info c2 = cipher_info c1).
      { intros c1 b r c2 w Hc1 Hst ->. split.
        - exact (Hcr_ecb _ _ _ _ _ _ _ Hx (crypt_fn_of _ _ _ _ _ _ _ (eq_trans Hc1 Hci) Hst)).
        - rewrite (crypt_keeps _ _ _ _ _ _ Hst). reflexivity. }
      pose proof (runs_ok_sum_le _ _ (@length _) _ _ _ _ _ Hstep eq_refl Hws) as Hle.
      refine (Nat.le_trans _ _ _ Hle (Nat.le_trans _ _ _ (sum_blocks_le _ _ input) _)). lia.
  - intros s i x out s' Hci H.
    unfold cipher.update, bind at 1, get in H. cbn beta iota zeta in H.
    assert (Hbm : cipher.block_mode s = from_native (info_mode i))
      by (unfold cipher.block_mode, cipher_impl.block_mode; rewrite Hci; reflexivity).
    assert (Hbs : cipher_impl.block_size s = info_block_size i)
      by (unfold cipher_impl.block_size; rewrite Hci; reflexivity).
    rewrite Hbm in H. destruct (is_ecb (from_native (info_mode i))) eqn:Hx.
    + destruct (cipher_impl.update_chunked _ _ _ _ s) as [[[r o1] osz] s2] eqn:E.
      destruct (Z.eqb_spec r 0) as [-> |]; [| discriminate].
      injection H as <- <-.
      destruct (update_chunked_inv _ _ _ _ _ _ _ E) as (ws & Hws & ->).
      rewrite Hbs in Hws. apply is_ecb_from_native in Hx.
      rewrite length_resize. split; [exists ws; split; [exact Hws | reflexivity] |].
      assert (Hstep : forall (c1 : mbedtls_cipher_context_t L) b r c2 w,
                 cipher_info c1 = cipher_info (cipher_impl.ctx_ s) ->
                 mbedtls_cipher_update c1 b = (r, c2, w) ->
                 (0 <= r)%Z -> length w <= length b /\ cipher_info c2 = cipher_info c1).
      { intros c1 b r c2 w Hc1 Hst Hg. split.
        - exact (Hupd_ecb _ _ _ _ _ _ _ Hx (update_fn_of _ _ _ _ _ _ (eq_trans Hc1 Hci) Hst) Hg).
        - rewrite (update_keeps _ _ _ _ _ Hst). reflexivity. }
      pose proof (runs_ok_sum_le _ _ (@length _) _ _ _ _ _ Hstep eq_refl Hws) as Hle.
      refine (Nat.le_trans _ _ _ Hle (Nat.le_trans _ _ _ (sum_blocks_le _ _ x) _)). lia.
    + unfold bind in H.
      destruct (cipher_impl.c_call_out _ _ s) as [[w | ex] s2] eqn:E; [| discriminate].
      apply c_call_out_ok in E as (c & Hu & ->).
      unfold ret in H. injection H as <- <-. rewrite resize_write0.
      split; [exact Hu |].
      pose proof (Hupd _ _ _ _ _ _ _ (update_fn_of _ _ _ _ _ _ Hci Hu) ltac:(lia)). lia.
  - intros s i out s' Hci H.
    unfold cipher.finish, bind, get in H. cbn beta iota zeta in H.
    destruct (cipher_impl.c_call_out _ _ s) as [[w | ex] s2] eqn:E; [| discriminate].
    apply c_call_out_ok in E as (c & Hf & ->).
    unfold ret in H. injection H as <- <-. rewrite resize_write0.
    split; [exact Hf |].
    pose proof (Hfin _ _ _ _ _ _ (finish_fn_of _ _ _ _ _ Hci Hf) eq_refl). lia.
Qed.

Lemma toy_output_contract : output_contract toy_copy.
Proof.
  split; [| split; [| split; [| split]]].
  - intros info c r x code r' w H _. cbn in H. injection H as _ _ <-. lia.
  - intros info c r x code r' w _ H _. cbn in H. injection H as _ _ <-. lia.
  - intros info c r code r' w H _. cbn in H. injection H as _ _ <-. cbn. lia.
  - intros info c r ivb x r' w H. cbn in H. injection H as _ <-. lia.
  - intros info c r ivb x r' w _ H. cbn in H. injection H as _ <-. lia.
Qed.

Lemma output_sizing_witness :
  crypt_engine.run (L := toy_copy) true padding_t.none [] [] encrypt_mode b4 = Ok b4 /\
  exists i s c ws,
    cipher_info_from_type toy_copy true = Some i /\
    configured (L := toy_copy) true padding_t.none [] [] encrypt_mode s /\
    runs_ok (fun c x => mbedtls_cipher_crypt c (firstn (info_iv_size i) []) x)
      (fun r => r = 0%Z) (cipher_impl.ctx_ s)
      (if is_ecb (from_native (info_mode i))
       then blocks_of (info_block_size i) (length b4 / info_block_size i) b4
       else [b4]) c ws /\
    length b4 = sum_lengths ws /\
    length b4 <= length b4 + info_block_size i + 32.
Proof.
  split; [reflexivity |].
  exact (proj1 (output_sizing toy_copy toy_output_contract) true padding_t.none [] []
           encrypt_mode b4 b4 eq_refl).
Defined.

(** ** Successful runs, read forwards *)





(** ** Whole blocks *)

Lemma length_blocks_of bsize n src : length (blocks_of bsize n src) = n.
Proof. revert src; induction n; intros src; cbn; [reflexivity | rewrite IHn; reflexivity]. Qed.

Lemma runs_ok_length {L : mbedtls_lib} step good (c c' : mbedtls_cipher_context_t L) bl ws :
  runs_ok step good c bl c' ws -> length ws = length bl.
Proof. induction 1; cbn; congruence. Qed.

Lemma sum_lengths_const bsize ws :
  Forall (fun w => length w = bsize) ws -> sum_lengths ws = length ws * bsize.
Proof.
  induction 1 as [| w ws Hw _ IH]; [reflexivity |].
  rewrite sum_lengths_cons, IH, Hw. cbn. lia.
Qed.

Lemma resize_exact n (buf : buffer_t) : length (firstn n buf) = n -> resize n buf = firstn n buf.
Proof.
  intros H. unfold resize. rewrite length_firstn in H.
  replace (n - length buf) with 0 by lia. apply app_nil_r.
Qed.

Lemma firstn_write_at (buf w : buffer_t) p :
  p + length w <= length buf ->
  firstn (p + length w) (write_at buf p w) = firstn p buf ++ w.
Proof.
  intros H. unfold write_at.
  rewrite firstn_app, length_firstn, firstn_all2 by (rewrite length_firstn; lia).
  replace (p + length w - Nat.min p (length buf)) with (length w) by lia.
  rewrite firstn_app, firstn_all, Nat.sub_diag. cbn. rewrite app_nil_r. reflexivity.
Qed.

Lemma write_blocks_firstn (buf : buffer_t) p bsize ws :
  Forall (fun w => length w = bsize) ws ->
  p + length ws * bsize <= length buf ->
  firstn (p + length ws * bsize) (write_blocks buf p bsize ws) = firstn p buf ++ concat ws.
Proof.
  intros Hf. revert buf p. induction Hf as [| w ws Hw _ IH]; intros buf p Hl.
  - cbn. rewrite Nat.add_0_r, app_nil_r. reflexivity.
  - cbn [write_blocks concat length] in *.
    replace (p + S (length ws) * bsize) with ((p + bsize) + length ws * bsize) by lia.
    rewrite IH by (rewrite length_write_at_in; lia).
    rewrite <- Hw, firstn_write_at by lia. rewrite app_assoc. reflexivity.
Qed.


(** ECB calls on whole blocks answer whole blocks. *)
Lemma runs_ecb_exact {L : mbedtls_lib} (c c' : mbedtls_cipher_context_t L) i ivb bl ws :
  ecb_block_exact L -> info_mode i = MBEDTLS_MODE_ECB -> cipher_info c = Some i ->
  Forall (fun b => length b = info_block_size i) bl ->
  runs_ok (fun c x => mbedtls_cipher_crypt c ivb x) (fun r => r = 0%Z) c bl c' ws ->
  Forall (fun w => length w = info_block_size i) ws.
Proof.
  intros He Hm Hc Hbl Hr. revert Hc Hbl.
  induction Hr as [| c b bl c1 r w c2 ws E Hg Hr IH]; intros Hc Hbl; [constructor |].
  cbv beta in Hg. subst r. inversion Hbl as [| ? ? Hb Hbl']; subst.
  constructor.
  - exact (He _ _ _ _ _ _ _ Hm Hb (crypt_fn_of _ _ _ _ _ _ _ Hc E)).
  - apply IH; [| exact Hbl']. rewrite (crypt_keeps _ _ _ _ _ _ E). exact Hc.
Qed.


Lemma length_concat_sum (ws : list buffer_t) : length (concat ws) = sum_lengths ws.
Proof.
  induction ws as [| w ws IH]; [reflexivity |].
  cbn [concat]. rewrite length_app, IH, sum_lengths_cons. reflexivity.
Qed.

(** The ECB output buffer, cut to the reported length, is the blocks
    written one after the other. *)
Lemma assemble_blocks bsize ws n :
  Forall (fun w => length w = bsize) ws -> length ws * bsize <= n ->
  resize (sum_lengths ws) (write_blocks (zeros n) 0 bsize ws) = concat ws.
Proof.
  intros Hf Hl. rewrite (sum_lengths_const _ _ Hf).
  pose proof (write_blocks_firstn (zeros n) 0 bsize ws Hf
                ltac:(rewrite length_zeros; lia)) as Hw.
  rewrite Nat.add_0_l in Hw. cbn [firstn app] in Hw.
  rewrite resize_exact; rewrite Hw; [reflexivity |].
  rewrite length_concat_sum. apply sum_lengths_const. exact Hf.
Qed.

(** ** C1: round trip *)



Lemma toy_ecb_block_exact : ecb_block_exact toy_copy.
Proof. intros info c r ivb x r' y _ Hx H. cbn in H. injection H as _ <-. exact Hx. Qed.




(** * Further properties of the code *)

(** ** Throws of the building blocks *)

Lemma c_call_out_throw {L : mbedtls_lib} {A} tag f (s s' : cipher_impl.t L) e :
  cipher_impl.c_call_out (A := A) tag f s = (Throw e, s') -> exists r, e = mbed_exception r tag.
Proof.
  unfold cipher_impl.c_call_out, bind, cipher_impl.call.
  destruct (f (cipher_impl.ctx_ s)) as [[r c] a].
  destruct (Z.eqb r 0); intros H; inversion H; eauto.
Qed.

Lemma setup_throw {L : mbedtls_lib} type (s s' : cipher_impl.t L) e :
  cipher_impl.setup type s = (Throw e, s') ->
  e = unknown_cipher \/ exists r, e = mbed_exception r "mbedtls_cipher_setup".
Proof.
  unfold cipher_impl.setup, bind at 1, lift, native_info.
  destruct (cipher_info_from_type L type) as [i |].
  - intros H. right. unfold cipher_impl.c_call in H. exact (c_call_out_throw _ _ _ _ _ H).
  - intros H; injection H as <- _. left; reflexivity.
Qed.

Lemma key_throw {L : mbedtls_lib} k m (s s' : cipher_impl.t L) e :
  cipher_impl.key k m s = (Throw e, s') -> exists r, e = mbed_exception r "mbedtls_cipher_setkey".
Proof. unfold cipher_impl.key, cipher_impl.c_call. apply c_call_out_throw. Qed.

(** ** X1: the static queries and a constructed object agree *)

(** X1: once [cipher(type)] has been constructed, the static queries
    [cipher::block_size(type)], [iv_size(type)], [key_bitlen(type)] and
    [block_mode(type)] answer what the object's [block_size()],
    [iv_size()], [key_bitlen()] and [block_mode()] answer. *)
Theorem static_queries_match_object (L : mbedtls_lib) (type : cipher_t L)
    (s : cipher_impl.t L) :
  cipher.make type = Ok s ->
  cipher_block_size type = Ok (cipher.block_size s) /\
  cipher_iv_size type = Ok (cipher_rest.iv_size s) /\
  cipher_key_bitlen type = Ok (cipher_rest.key_bitlen s) /\
  cipher_block_mode type = Ok (cipher.block_mode s).
Proof.
  unfold cipher.make.
  destruct (cipher_impl.setup type cipher_impl.init) as [[[] | e] s1] eqn:H; [| discriminate].
  intros Hs; injection Hs as <-.
  destruct (setup_ok _ _ _ _ H) as (i & Hi & Hc & _).
  unfold cipher_block_size, cipher_iv_size, cipher_key_bitlen, cipher_block_mode, native_info,
    cipher.block_size, cipher_impl.block_size, cipher_rest.iv_size, cipher_impl.iv_size,
    cipher_rest.key_bitlen, cipher_rest.impl_key_bitlen, cipher.block_mode,
    cipher_impl.block_mode.
  rewrite Hi, Hc. auto.
Qed.

Lemma static_queries_match_object_witness :
  cipher_block_size (L := toy_copy) true =
    Ok (cipher.block_size (toy_cipher (fun r x => (0%Z, S r, x)) true)) /\
  cipher_iv_size (L := toy_copy) true =
    Ok (cipher_rest.iv_size (toy_cipher (fun r x => (0%Z, S r, x)) true)) /\
  cipher_key_bitlen (L := toy_copy) true =
    Ok (cipher_rest.key_bitlen (toy_cipher (fun r x => (0%Z, S r, x)) true)) /\
  cipher_block_mode (L := toy_copy) true =
    Ok (cipher.block_mode (toy_cipher (fun r x => (0%Z, S r, x)) true)).
Proof.
  exact (static_queries_match_object toy_copy true
           (toy_cipher (fun r x => (0%Z, S r, x)) true) eq_refl).
Defined.

(** ** X2: an algorithm mbedtls does not know *)

(** X2: for a cipher type mbedtls has no description of, the constructor,
    the four static queries, the one-shot [encrypt] and [decrypt] and, in
    the AEAD build, [encrypt_aead] and [decrypt_aead] all throw
    [exceptions::unknown_cipher]. *)
Theorem unknown_cipher_everywhere (L : mbedtls_lib) (type : cipher_t L) :
  cipher_info_from_type L type = None ->
  cipher.make type = Throw unknown_cipher /\
  cipher_block_size type = Throw unknown_cipher /\
  cipher_iv_size type = Throw unknown_cipher /\
  cipher_key_bitlen type = Throw unknown_cipher /\
  cipher_block_mode type = Throw unknown_cipher /\
  (forall pad iv key x,
     cipher.encrypt type pad iv key x = Throw unknown_cipher /\
     cipher.decrypt type pad iv key x = Throw unknown_cipher) /\
  (forall iv key ad x, cipher.encrypt_aead true type iv key ad x = Throw unknown_cipher) /\
  (forall iv key ad tag x,
     cipher.decrypt_aead true type iv key ad tag x = Throw unknown_cipher).
Proof.
  intros H.
  unfold cipher.make, cipher_block_size, cipher_iv_size, cipher_key_bitlen, cipher_block_mode,
    cipher.encrypt, cipher.decrypt, cipher.encrypt_aead, cipher.decrypt_aead,
    crypt_engine.run, crypt_engine.make, cipher_impl.setup, bind, lift, native_info.
  rewrite H. repeat split; intros; try split;
    unfold cipher_block_mode, native_info; rewrite ?H; reflexivity.
Qed.

Lemma unknown_cipher_everywhere_witness :
  cipher.make (L := toy_ecb_only) false = Throw unknown_cipher /\
  cipher_block_size (L := toy_ecb_only) false = Throw unknown_cipher /\
  cipher_iv_size (L := toy_ecb_only) false = Throw unknown_cipher /\
  cipher_key_bitlen (L := toy_ecb_only) false = Throw unknown_cipher /\
  cipher_block_mode (L := toy_ecb_only) false = Throw unknown_cipher /\
  (forall pad iv key x,
     cipher.encrypt (L := toy_ecb_only) false pad iv key x = Throw unknown_cipher /\
     cipher.decrypt (L := toy_ecb_only) false pad iv key x = Throw unknown_cipher) /\
  (forall iv key ad x,
     cipher.encrypt_aead (L := toy_ecb_only) true false iv key ad x = Throw unknown_cipher) /\
  (forall iv key ad tag x,
     cipher.decrypt_aead (L := toy_ecb_only) true false iv key ad tag x = Throw unknown_cipher).
Proof. exact (unknown_cipher_everywhere toy_ecb_only false eq_refl). Defined.

(** ** X3: the AEAD build switch *)

(** X3: [encrypt_aead] and [decrypt_aead] throw [exceptions::aead_error]
    exactly when [supports_aead()] is false: without AEAD support they
    throw it for every argument, with it they never do (they return, or
    throw [unknown_cipher] or an mbedtls code). *)
Theorem aead_error_iff_unsupported (L : mbedtls_lib) (b : bool) (type : cipher_t L)
    iv key ad tag x :
  (cipher.encrypt_aead b type iv key ad x = Throw aead_error <->
   cipher_rest.supports_aead b = false) /\
  (cipher.decrypt_aead b type iv key ad tag x = Throw aead_error <->
   cipher_rest.supports_aead b = false).
Proof.
  destruct b; [| split; split; reflexivity].
  cbn [cipher_rest.supports_aead]. split.
  - unfold cipher.encrypt_aead. unfold bind at 1.
    destruct (cipher_impl.setup type cipher_impl.init) as [[[] | e] s1] eqn:E1.
    2: { destruct (setup_throw _ _ _ _ E1) as [-> | [r ->]]; split; discriminate. }
    unfold bind at 1.
    destruct (cipher_impl.key key encrypt_mode s1) as [[[] | e] s2] eqn:E2.
    2: { destruct (key_throw _ _ _ _ _ E2) as [r ->]; split; discriminate. }
    unfold bind at 1, get. cbn beta zeta. unfold bind at 1.
    destruct (cipher_impl.c_call_out _ _ s2) as [[[w tw] | e] s3] eqn:E3.
    + split; discriminate.
    + destruct (c_call_out_throw _ _ _ _ _ E3) as [r ->]. split; discriminate.
  - unfold cipher.decrypt_aead. unfold bind at 1.
    destruct (cipher_impl.setup type cipher_impl.init) as [[[] | e] s1] eqn:E1.
    2: { destruct (setup_throw _ _ _ _ E1) as [-> | [r ->]]; split; discriminate. }
    unfold bind at 1.
    destruct (cipher_impl.key key decrypt_mode s1) as [[[] | e] s2] eqn:E2.
    2: { destruct (key_throw _ _ _ _ _ E2) as [r ->]; split; discriminate. }
    unfold bind at 1, get. cbn beta zeta. unfold bind at 1, cipher_impl.call.
    destruct (mbedtls_cipher_auth_decrypt _ _ _ _ _) as [[r c] w].
    destruct (Z.eqb r MBEDTLS_ERR_CIPHER_AUTH_FAILED); [split; discriminate |].
    destruct (Z.eqb r 0); split; discriminate.
Qed.

(** ** [start()] and the data calls touch only the running part *)

Lemma start_run_only {L : mbedtls_lib} (s : cipher_impl.t L) o s' :
  cipher.start s = (o, s') -> run_only s s'.
Proof.
  rewrite start_eq. cbn zeta.
  destruct (set_iv_fn _ _ _ _ _) as [a r1]. destruct (Z.eqb a 0).
  - destruct (reset_fn _ _ _ _) as [b r2]. intros H; injection H as _ <-. split; reflexivity.
  - intros H; injection H as _ <-. split; reflexivity.
Qed.

Lemma get_run_only {L : mbedtls_lib} (s : cipher_impl.t L) o s' :
  get s = (o, s') -> run_only s s'.
Proof. intros H; injection H as _ <-. apply run_only_refl. Qed.

Lemma throw_run_only {L : mbedtls_lib} {A} e (s : cipher_impl.t L) (o : outcome A) s' :
  throw e s = (o, s') -> run_only s s'.
Proof. intros H; injection H as _ <-. apply run_only_refl. Qed.

Lemma call_run_only {L : mbedtls_lib} {A} f (s : cipher_impl.t L) (o : outcome (Z * A)) s' :
  (forall c r c' a, f c = (r, c', a) -> c' = with_run c (run c')) ->
  cipher_impl.call f s = (o, s') -> run_only s s'.
Proof.
  intros Hf. unfold cipher_impl.call.
  destruct (f (cipher_impl.ctx_ s)) as [[r c] a] eqn:E.
  intros H; injection H as _ <-. split; [exact (Hf _ _ _ _ E) | reflexivity].
Qed.

Lemma crypt_run_only {L : mbedtls_lib} x (s : cipher_impl.t L) o s' :
  cipher.crypt x s = (o, s') -> run_only s s'.
Proof.
  unfold cipher.crypt. apply bind_run_only; [apply start_run_only |].
  intros [] s1 o1 s1'. apply bind_run_only; [apply get_run_only |].
  intros s2 s3 o3 s3'. cbv zeta.
  apply bind_run_only.
  - intros s4 o4 s4'. apply c_call_out_run_only. intros c r c' a. apply update_keeps.
  - intros w s5 o5 s5'. apply bind_run_only.
    + intros s6 o6 s6'. apply c_call_out_run_only. intros c r c' a. apply finish_keeps.
    + intros fin. apply ret_run_only.
Qed.

Lemma run_only_same_setup {L : mbedtls_lib} (s s' : cipher_impl.t L) :
  run_only s s' -> same_setup s s'.
Proof. intros [H1 H2]. split; [rewrite H1; reflexivity | exact H2]. Qed.

Lemma snd_same_setup {L : mbedtls_lib} {A} (m : stM (cipher_impl.t L) A) s :
  (forall o s', m s = (o, s') -> run_only s s') -> same_setup s (snd (m s)).
Proof. intros H. destruct (m s) as [o s'] eqn:E. exact (run_only_same_setup _ _ (H _ _ eq_refl)). Qed.

Lemma c_call_same_setup {L : mbedtls_lib} tag f (s : cipher_impl.t L) :
  (forall c r c', f c = (r, c') -> cipher_info c' = cipher_info c) ->
  same_setup s (snd (cipher_impl.c_call tag f s)).
Proof.
  intros Hf. unfold cipher_impl.c_call, cipher_impl.c_call_out, cipher_impl.call, bind.
  destruct (f (cipher_impl.ctx_ s)) as [r c'] eqn:E.
  destruct (Z.eqb r 0); (split; [exact (Hf _ _ _ E) | reflexivity]).
Qed.

Lemma update_ad_keeps {L : mbedtls_lib} (G : mbedtls_gcm_lib L) c ad r c' :
  mbedtls_cipher_update_ad G c ad = (r, c') -> c' = with_run c (run c').
Proof.
  unfold mbedtls_cipher_update_ad. destruct (update_ad_fn G _ _ _ _) as [r0 x0].
  intros H; injection H as <- <-. reflexivity.
Qed.

Lemma write_tag_keeps {L : mbedtls_lib} (G : mbedtls_gcm_lib L) c n r c' t :
  mbedtls_cipher_write_tag G c n = (r, c', t) -> c' = with_run c (run c').
Proof.
  unfold mbedtls_cipher_write_tag. destruct (write_tag_fn G _ _ _ _) as [[r0 x0] t0].
  intros H; injection H as <- <- <-. reflexivity.
Qed.

Lemma check_tag_keeps {L : mbedtls_lib} (G : mbedtls_gcm_lib L) c t r c' :
  mbedtls_cipher_check_tag G c t = (r, c') -> c' = with_run c (run c').
Proof.
  unfold mbedtls_cipher_check_tag. destruct (check_tag_fn G _ _ _ _) as [r0 x0].
  intros H; injection H as <- <-. reflexivity.
Qed.

(** ** Buffers written twice *)

Lemma resize_prefix n (l r : buffer_t) : length l = n -> resize n (l ++ r) = l.
Proof.
  intros <-. unfold resize.
  rewrite firstn_app, firstn_all, Nat.sub_diag, length_app. cbn [firstn].
  replace (length l - (length l + length r)) with 0 by lia. cbn. rewrite !app_nil_r. reflexivity.
Qed.

(** The output of [crypt()]: the update's bytes at the start, the
    finish's right after, cut to both. *)
Lemma resize_write_twice (buf w f : buffer_t) :
  resize (length w + length f) (write_at (write_at buf 0 w) (length w) f) = w ++ f.
Proof.
  change (write_at buf 0 w) with (w ++ skipn (length w) buf).
  unfold write_at.
  rewrite firstn_app, firstn_all, Nat.sub_diag. cbn [firstn]. rewrite app_nil_r.
  rewrite app_assoc. apply resize_prefix. apply length_app.
Qed.

Lemma bind_congr {S A B} (m : stM S A) (k1 k2 : A -> stM S B) s :
  (forall a s1, m s = (Ok a, s1) -> k1 a s1 = k2 a s1) -> bind m k1 s = bind m k2 s.
Proof.
  intros H. unfold bind. destruct (m s) as [[a | e] s1] eqn:E; [apply H; reflexivity | reflexivity].
Qed.

(** ** X4: [crypt()] is [start()], [update()], [finish()] *)

(** X4: on a cipher whose block mode is not ECB, [crypt(input)] behaves
    exactly as [start()], then [update(input)], then [finish()], returning
    the update's output followed by the finish's output: the same result,
    the same exception at the same step, the same final state. *)
Theorem crypt_is_start_update_finish (L : mbedtls_lib) (s : cipher_impl.t L) x :
  is_ecb (cipher.block_mode s) = false ->
  cipher.crypt x s =
  (cipher.start;; y <- cipher.update x;; f <- cipher.finish;; ret (y ++ f)) s.
Proof.
  intros He. unfold cipher.crypt. apply bind_congr. intros [] s1 Hs.
  assert (Hb : is_ecb (cipher.block_mode s1) = false).
  { destruct (start_run_only _ _ _ Hs) as [Hc _].
    unfold cipher.block_mode, cipher_impl.block_mode in He |- *. rewrite Hc. exact He. }
  unfold cipher.update, cipher.finish, bind, get. cbn beta zeta. rewrite Hb.
  destruct (cipher_impl.c_call_out "mbedtls_cipher_update" _ s1) as [[w | e] s2];
    [| reflexivity].
  unfold ret.
  destruct (cipher_impl.c_call_out "mbedtls_cipher_finish" _ s2) as [[f | e] s3];
    [| reflexivity].
  rewrite resize_write_twice, !resize_write0. reflexivity.
Qed.

Lemma crypt_is_start_update_finish_witness :
  cipher.crypt (L := toy_copy) b4 (toy_cipher (fun r x => (0%Z, S r, x)) false) =
  (cipher.start;; y <- cipher.update b4;; f <- cipher.finish;; ret (y ++ f))
    (toy_cipher (fun r x => (0%Z, S r, x)) false).
Proof.
  exact (crypt_is_start_update_finish toy_copy
           (toy_cipher (fun r x => (0%Z, S r, x)) false) b4 eq_refl).
Defined.

(** ** X5: the algorithm and the remembered IV *)

(** X5: [iv(v)] records [v] as the remembered IV [iv_data_], on every
    path, also when mbedtls rejects it and the call throws; no other
    member changes the remembered IV.  No member changes the algorithm
    bound by the constructor, so [block_size()], [iv_size()],
    [key_bitlen()] and [block_mode()] keep their values, whether the
    member returns or throws (for the overloads writing into a caller's
    [buffer_t], whenever their behaviour is defined). *)
Theorem members_keep_setup (L : mbedtls_lib) (G : mbedtls_gcm_lib L) (s : cipher_impl.t L) :
  (forall v, cipher_impl.iv_data_ (snd (cipher.iv v s)) = v /\
             cipher_info (cipher_impl.ctx_ (snd (cipher.iv v s))) =
             cipher_info (cipher_impl.ctx_ s)) /\
  (forall k m, same_setup s (snd (cipher.key k m s))) /\
  (forall p, same_setup s (snd (cipher.padding p s))) /\
  same_setup s (snd (cipher.start s)) /\
  (forall x, same_setup s (snd (cipher.update x s))) /\
  (forall x mem n, same_setup s (snd (cipher.update_raw x mem n s))) /\
  (forall x i n out o r,
     cipher_rest.update_at x i n out o s = Some r -> same_setup s (snd r)) /\
  same_setup s (snd (cipher.finish s)) /\
  (forall mem n, same_setup s (snd (cipher.finish_raw mem n s))) /\
  (forall out o r, cipher_rest.finish_at out o s = Some r -> same_setup s (snd r)) /\
  (forall x, same_setup s (snd (cipher.crypt x s))) /\
  (forall ad, same_setup s (snd (cipher_rest.gcm_additional_data G ad s))) /\
  (forall n, same_setup s (snd (cipher_rest.gcm_encryption_tag G n s))) /\
  (forall t, same_setup s (snd (cipher_rest.gcm_check_decryption_tag G t s))).
Proof.
  split; [| split; [| split; [| split; [| split; [| split; [| split; [| split;
    [| split; [| split; [| split; [| split; [| split]]]]]]]]]]]].
  - intros v. unfold cipher.iv, cipher_impl.iv, cipher_impl.c_call, cipher_impl.c_call_out,
      cipher_impl.call, bind, mbedtls_cipher_set_iv. cbn [cipher_impl.ctx_].
    destruct (set_iv_fn _ _ _ _ _) as [a x]. destruct (Z.eqb a 0); split; reflexivity.
  - intros k m. apply c_call_same_setup. intros c r c'. unfold mbedtls_cipher_setkey.
    destruct (setkey_fn _ _ _ _ _ _) as [r0 x0]. intros H; injection H as _ <-. reflexivity.
  - intros p. destruct p; cbn [cipher.padding cipher_impl.padding];
      [split; reflexivity | apply c_call_same_setup; intros c r c';
       unfold mbedtls_cipher_set_padding_mode; destruct (set_padding_fn _ _ _ _) as [r0 x0];
       intros H; injection H as _ <-; reflexivity ..].
  - apply snd_same_setup. apply start_run_only.
  - intros x. apply snd_same_setup. apply update_run_only.
  - intros x mem n. unfold cipher.update_raw. destruct (is_ecb _).
    + destruct (cipher_impl.update_chunked _ _ _ _ s) as [[[r m] o] s'] eqn:E.
      exact (run_only_same_setup _ _ (update_chunked_run_only _ _ _ _ _ _ _ _ _ E)).
    + destruct (mbedtls_cipher_update _ _) as [[r c] w] eqn:E.
      apply run_only_same_setup. split; [exact (update_keeps _ _ _ _ _ E) | reflexivity].
  - intros x i n out o res. unfold cipher_rest.update_at, cipher_rest.within_output.
    destruct (Nat.ltb _ _); [discriminate |]. cbv zeta. destruct (is_ecb _).
    + destruct (cipher_impl.update_chunked _ _ _ _ s) as [[[r m] u] s'] eqn:E.
      pose proof (run_only_same_setup _ _ (update_chunked_run_only _ _ _ _ _ _ _ _ _ E)) as Hs.
      destruct (Z.eqb r 0); destruct (Nat.leb _ _); intros Hr; inversion Hr; subst; exact Hs.
    + destruct (mbedtls_cipher_update _ _) as [[r c] w] eqn:E.
      destruct (Nat.leb _ _); intros Hr; inversion Hr; subst.
      apply run_only_same_setup. split; [exact (update_keeps _ _ _ _ _ E) | reflexivity].
  - apply snd_same_setup. apply finish_run_only.
  - intros mem n. unfold cipher.finish_raw.
    destruct (mbedtls_cipher_finish _) as [[r c] w] eqn:E.
    apply run_only_same_setup. split; [exact (finish_keeps _ _ _ _ E) | reflexivity].
  - intros out o res. unfold cipher_rest.finish_at, cipher_rest.within_output.
    destruct (mbedtls_cipher_finish _) as [[r c] w] eqn:E.
    destruct (Nat.leb _ _); intros Hr; inversion Hr; subst.
    apply run_only_same_setup. split; [exact (finish_keeps _ _ _ _ E) | reflexivity].
  - intros x. apply snd_same_setup. apply crypt_run_only.
  - intros ad. apply snd_same_setup. intros o s'. unfold cipher_rest.gcm_additional_data,
      cipher_impl.c_call. apply c_call_out_run_only.
    intros c r c' a. destruct (mbedtls_cipher_update_ad G c ad) as [r0 c0] eqn:E.
    intros H; injection H as _ <- _. exact (update_ad_keeps _ _ _ _ _ E).
  - intros n. apply snd_same_setup. intros o s'. unfold cipher_rest.gcm_encryption_tag.
    cbv zeta. apply bind_run_only.
    + intros s1 o1 s1'. apply c_call_out_run_only. intros c r c' a. apply write_tag_keeps.
    + intros t. apply ret_run_only.
  - intros t. apply snd_same_setup. intros o s'. unfold cipher_rest.gcm_check_decryption_tag.
    apply bind_run_only.
    + intros s1 o1 s1'. apply call_run_only. intros c r c' a.
      destruct (mbedtls_cipher_check_tag G c t) as [r0 c0] eqn:E.
      intros H; injection H as _ <- _. exact (check_tag_keeps _ _ _ _ _ E).
    + intros [r u] s1 o1 s1'. destruct (Z.eqb r 0); [apply ret_run_only |].
      destruct (Z.eqb r MBEDTLS_ERR_CIPHER_AUTH_FAILED); [apply ret_run_only | apply throw_run_only].
Qed.

(** ** Writes into the caller's buffer *)

(** The chunk loop run on two buffers at two offsets: the same codes,
    context and count, and the same bytes written at each offset. *)
Lemma update_loop_two {L : mbedtls_lib} n bsize src (c : mbedtls_cipher_context_t L)
    mem1 base1 acc1 mem2 base2 acc2 :
  match cipher_impl.update_loop n bsize src c (write_at mem1 base1 acc1) base1 (length acc1),
        cipher_impl.update_loop n bsize src c (write_at mem2 base2 acc2) base2 (length acc2) with
  | (r1, c1, m1, o1), (r2, c2, m2, o2) =>
      r1 = r2 /\ c1 = c2 /\
      exists W d, o1 = length acc1 + d /\ o2 = length acc2 + d /\
        m1 = write_at mem1 base1 (acc1 ++ W) /\ m2 = write_at mem2 base2 (acc2 ++ W) /\
        ((0 <= r1)%Z -> d = length W)
  end.
Proof.
  revert src c acc1 acc2.
  induction n as [| n IH]; intros src c acc1 acc2.
  - cbn [cipher_impl.update_loop]. split; [reflexivity | split; [reflexivity |]].
    exists [], 0. rewrite !app_nil_r, !Nat.add_0_r. repeat split; auto.
  - cbn [cipher_impl.update_loop].
    destruct (mbedtls_cipher_update c (firstn bsize src)) as [[r c'] u] eqn:E.
    rewrite !write_at_app.
    destruct (Z.ltb_spec r 0) as [Hlt | Hge].
    + split; [reflexivity | split; [reflexivity |]]. exists u, 0. rewrite !Nat.add_0_r.
      repeat split; try reflexivity. intros Hr; lia.
    + rewrite <- !length_app.
      pose proof (IH (skipn bsize src) c' (acc1 ++ u) (acc2 ++ u)) as IH'. revert IH'.
      destruct (cipher_impl.update_loop n bsize (skipn bsize src) c'
                  (write_at mem1 base1 (acc1 ++ u)) base1 (length (acc1 ++ u)))
        as [[[r1 c1] m1] o1].
      destruct (cipher_impl.update_loop n bsize (skipn bsize src) c'
                  (write_at mem2 base2 (acc2 ++ u)) base2 (length (acc2 ++ u)))
        as [[[r2 c2] m2] o2].
      intros (Hr & Hc & W & d & Ho1 & Ho2 & Hm1 & Hm2 & Hd).
      split; [exact Hr | split; [exact Hc |]].
      exists (u ++ W), (length u + d). rewrite length_app in Ho1, Ho2. rewrite !app_assoc.
      split; [lia | split; [lia | split; [exact Hm1 | split; [exact Hm2 |]]]].
      intros Hr0. rewrite (Hd Hr0), length_app. reflexivity.
Qed.

Lemma update_chunked_two {L : mbedtls_lib} input mem1 base1 osize1 mem2 base2 osize2
    (s : cipher_impl.t L) :
  match cipher_impl.update_chunked input mem1 base1 osize1 s,
        cipher_impl.update_chunked input mem2 base2 osize2 s with
  | ((r1, m1, o1), s1), ((r2, m2, o2), s2) =>
      r1 = r2 /\ s1 = s2 /\
      (r1 = 0%Z -> exists W, o1 = length W /\ o2 = length W /\
                    m1 = write_at mem1 base1 W /\ m2 = write_at mem2 base2 W)
  end.
Proof.
  unfold cipher_impl.update_chunked. cbv zeta.
  destruct (negb _).
  { split; [reflexivity | split; [reflexivity |]].
    unfold MBEDTLS_ERR_CIPHER_FULL_BLOCK_EXPECTED. discriminate. }
  pose proof (update_loop_two (length input / cipher_impl.block_size s)
                (cipher_impl.block_size s) input (cipher_impl.ctx_ s)
                mem1 base1 [] mem2 base2 []) as HL.
  rewrite !write_at_nil in HL. cbn [length app] in HL.
  revert HL.
  destruct (cipher_impl.update_loop _ _ _ _ mem1 base1 0) as [[[r1 c1] m1] o1].
  destruct (cipher_impl.update_loop _ _ _ _ mem2 base2 0) as [[[r2 c2] m2] o2].
  intros (-> & -> & W & d & Ho1 & Ho2 & Hm1 & Hm2 & Hd).
  destruct (Z.ltb_spec r2 0) as [Hlt | Hge].
  - split; [reflexivity | split; [reflexivity | intros; lia]].
  - split; [reflexivity | split; [reflexivity |]]. intros _. exists W.
    rewrite (Hd Hge) in Ho1, Ho2. auto.
Qed.

(** ** X6: the indexed [update] overload on a partial block *)

(** X6: on an ECB cipher, [update(input, in_index, count, output,
    out_index)] with a [count] (inside [input]) that is not a multiple of
    the block size throws [exception{MBEDTLS_ERR_CIPHER_FULL_BLOCK_EXPECTED,
    "update"}] before any mbedtls call: the caller's [output] and the
    object are left as they were. *)
Theorem update_at_misaligned (L : mbedtls_lib) (s : cipher_impl.t L)
    input in_index count output out_index :
  is_ecb (cipher.block_mode s) = true -> in_index + count <= length input ->
  count mod cipher.block_size s <> 0 ->
  cipher_rest.update_at input in_index count output out_index s =
  Some ((Throw (mbed_exception MBEDTLS_ERR_CIPHER_FULL_BLOCK_EXPECTED "update"), output), s).
Proof.
  intros He Hin Hm. unfold cipher_rest.update_at.
  replace (Nat.ltb (length input) (in_index + count)) with false
    by (symmetry; apply Nat.ltb_ge; exact Hin).
  cbn beta iota zeta. rewrite He.
  unfold cipher_impl.update_chunked. cbv zeta.
  rewrite length_firstn, length_skipn.
  replace (Nat.min count (length input - in_index)) with count by lia.
  apply Nat.eqb_neq in Hm. unfold cipher.block_size in Hm. rewrite Hm.
  cbn beta iota. unfold cipher_rest.within_output. cbn [fst snd].
  rewrite Nat.leb_refl. reflexivity.
Qed.

Lemma update_at_misaligned_witness :
  cipher_rest.update_at (L := toy_copy) b4 0 3 [] 0 (toy_cipher (fun r x => (0%Z, S r, x)) true) =
  Some ((Throw (mbed_exception MBEDTLS_ERR_CIPHER_FULL_BLOCK_EXPECTED "update"), []),
   toy_cipher (fun r x => (0%Z, S r, x)) true).
Proof.
  exact (update_at_misaligned toy_copy (toy_cipher (fun r x => (0%Z, S r, x)) true) b4 0 3 [] 0
           eq_refl ltac:(cbn; lia) ltac:(vm_compute; intros H; discriminate H)).
Defined.

(** ** X7: the indexed [update] overload and [update(input)] *)

(** X7: [update(input, in_index, count, output, out_index)] does what
    [update] does on the [count] bytes at [in_index] (which must lie inside
    [input]).  When that returns the bytes [y] and they fit in [output] at
    [out_index], the indexed overload writes [y] there, returns their
    number and leaves the object as [update] does; when they do not fit,
    it writes past the end of [output] ([None], undefined).  When [update]
    throws, the indexed overload throws the same exception, leaving the
    object as [update] does, unless the output of the failing call did
    not fit ([None]). *)
Theorem update_at_agrees (L : mbedtls_lib) (s : cipher_impl.t L)
    input in_index count output out_index :
  in_index + count <= length input ->
  match cipher.update (firstn count (skipn in_index input)) s with
  | (Ok y, s') =>
      out_index + length y <= length output ->
      cipher_rest.update_at input in_index count output out_index s =
      Some ((Ok (length y), write_at output out_index y), s')
  | (Throw e, s') =>
      cipher_rest.update_at input in_index count output out_index s = None \/
      exists output',
        cipher_rest.update_at input in_index count output out_index s =
        Some ((Throw e, output'), s')
  end.
Proof.
  intros Hin. unfold cipher.update, cipher_rest.update_at, bind at 1, get.
  replace (Nat.ltb (length input) (in_index + count)) with false
    by (symmetry; apply Nat.ltb_ge; exact Hin).
  cbn beta iota zeta.
  set (view := firstn count (skipn in_index input)).
  unfold cipher_rest.within_output.
  destruct (is_ecb (cipher.block_mode s)).
  - pose proof (update_chunked_two view
                  (zeros (length view + cipher_impl.block_size s + 32)) 0
                  (length view + cipher_impl.block_size s + 32)
                  output out_index 0 s) as HU.
    revert HU.
    destruct (cipher_impl.update_chunked view (zeros _) 0 _ s) as [[[r1 m1] o1] s1].
    destruct (cipher_impl.update_chunked view output out_index 0 s) as [[[r2 m2] o2] s2].
    intros (<- & <- & HW).
    destruct (Z.eqb_spec r1 0) as [Hr | Hr].
    + destruct (HW Hr) as (W & -> & -> & -> & ->). cbn beta iota.
      rewrite resize_write0. intros Hb. cbn [fst snd].
      rewrite (length_write_at_in _ _ _ Hb), Nat.leb_refl. reflexivity.
    + cbn beta iota. cbn [fst snd].
      destruct (Nat.leb _ _); [right; eexists; reflexivity | left; reflexivity].
  - unfold cipher_impl.c_call_out, cipher_impl.call, bind, ret, throw.
    destruct (mbedtls_cipher_update (cipher_impl.ctx_ s) view) as [[r c] w].
    destruct (Z.eqb r 0); cbn beta iota; cbn [fst snd].
    + rewrite resize_write0. intros Hb.
      rewrite (length_write_at_in _ _ _ Hb), Nat.leb_refl. reflexivity.
    + destruct (Nat.leb _ _); [right; eexists; reflexivity | left; reflexivity].
Qed.

Lemma update_at_agrees_witness :
  match cipher.update (L := toy_copy) (firstn 4 (skipn 0 b4))
          (toy_cipher (fun r x => (0%Z, S r, x)) true) with
  | (Ok y, s') =>
      0 + length y <= length (zeros 4) ->
      cipher_rest.update_at b4 0 4 (zeros 4) 0 (toy_cipher (fun r x => (0%Z, S r, x)) true) =
      Some ((Ok (length y), write_at (zeros 4) 0 y), s')
  | (Throw e, s') =>
      cipher_rest.update_at b4 0 4 (zeros 4) 0 (toy_cipher (fun r x => (0%Z, S r, x)) true)
        = None \/
      exists output',
        cipher_rest.update_at b4 0 4 (zeros 4) 0 (toy_cipher (fun r x => (0%Z, S r, x)) true) =
        Some ((Throw e, output'), s')
  end.
Proof.
  exact (update_at_agrees toy_copy (toy_cipher (fun r x => (0%Z, S r, x)) true)
           b4 0 4 (zeros 4) 0 ltac:(cbn; lia)).
Defined.

(** ** X8: the indexed [finish] overload and [finish()] *)

(** X8: [finish(output, out_index)] does what [finish()] does.  When that
    returns the bytes [y] and they fit in [output] at [out_index], it
    writes [y] there, returns their number and leaves the object as
    [finish()] does; when they do not fit, it writes past the end of
    [output] ([None], undefined).  When [finish()] throws, it throws the
    same exception, leaving the object as [finish()] does, unless the
    output of the failing call did not fit ([None]). *)
Theorem finish_at_agrees (L : mbedtls_lib) (s : cipher_impl.t L) output out_index :
  match cipher.finish s with
  | (Ok y, s') =>
      out_index + length y <= length output ->
      cipher_rest.finish_at output out_index s =
      Some ((Ok (length y), write_at output out_index y), s')
  | (Throw e, s') =>
      cipher_rest.finish_at output out_index s = None \/
      exists output', cipher_rest.finish_at output out_index s = Some ((Throw e, output'), s')
  end.
Proof.
  unfold cipher.finish, cipher_rest.finish_at, cipher_rest.within_output,
    cipher_impl.c_call_out, cipher_impl.call, bind, get, ret, throw. cbn beta zeta.
  destruct (mbedtls_cipher_finish (cipher_impl.ctx_ s)) as [[r c] w].
  destruct (Z.eqb r 0); cbn beta iota; cbn [fst snd].
  - rewrite resize_write0. intros Hb.
    rewrite (length_write_at_in _ _ _ Hb), Nat.leb_refl. reflexivity.
  - destruct (Nat.leb _ _); [right; eexists; reflexivity | left; reflexivity].
Qed.

(** ** X9: one-shot ECB keeps the length *)

(** X9: when mbedtls's ECB maps a block to a block, a successful one-shot
    [encrypt] or [decrypt] with an ECB algorithm returns exactly as many
    bytes as its input. *)
Theorem ecb_run_keeps_length (L : mbedtls_lib) type pad iv key m x y i :
  ecb_block_exact L -> cipher_info_from_type L type = Some i ->
  info_mode i = MBEDTLS_MODE_ECB ->
  crypt_engine.run type pad iv key m x = Ok y -> length y = length x.
Proof.
  intros Hex Hi0 Hmode H.
  destruct (run_ok_inv _ _ _ _ _ _ _ H) as (i' & sE & sE' & Hi & HE & Hal & Hcomp).
  rewrite Hi0 in Hi. injection Hi as <-.
  destruct (configure_ok _ _ _ _ _ _ HE) as (i1 & Hi1 & HciE & _).
  rewrite Hi0 in Hi1. injection Hi1 as <-.
  assert (Hx0 : is_ecb (from_native (info_mode i)) = true) by (rewrite Hmode; reflexivity).
  destruct (Hal Hx0) as [H0 Hm]. rewrite Hx0 in Hcomp.
  set (bs := info_block_size i) in *. set (n := length x / bs) in *.
  assert (Hbs : bs <> 0) by (intros Hb; rewrite Hb, Nat.mod_0_r in Hm; lia).
  assert (Hxn : length x = n * bs)
    by (pose proof (Nat.div_mod (length x) bs Hbs); subst n; lia).
  destruct (Nat.eqb_spec n 1) as [H1 | H1].
  - destruct ((fun Hk => compute_single_inv _ _ _ _ Hk Hcomp) H1) as (c & Hc & _).
    cbn [crypt_engine.input_] in Hc.
    pose proof (crypt_fn_of _ _ _ _ _ _ _ HciE Hc) as HfE.
    assert (Hxb : length x = info_block_size i) by (rewrite Hxn, H1; fold bs; lia).
    rewrite (Hex _ _ _ _ _ _ _ Hmode Hxb HfE). symmetry. exact Hxb.
  - destruct ((fun Hk => compute_multi_inv _ _ _ _ Hk Hcomp) H1) as (ws & Hws & Hyws & _).
    cbn [crypt_engine.input_ crypt_engine.chunks_ crypt_engine.block_size_] in Hws, Hyws.
    unfold crypt_engine.output_size in Hyws.
    cbn [crypt_engine.input_size_ crypt_engine.block_size_] in Hyws.
    destruct (blocks_of_aligned bs n x Hxn) as [Hbl _].
    pose proof (runs_ecb_exact _ _ _ _ _ _ Hex Hmode HciE Hbl Hws) as Hwl.
    fold bs in Hwl.
    assert (Hn : length ws = n)
      by (rewrite (runs_ok_length _ _ _ _ _ _ Hws), length_blocks_of; reflexivity).
    assert (Hbound : length ws * bs <= 32 + length x + bs) by (rewrite Hn; lia).
    rewrite (assemble_blocks _ _ _ Hwl Hbound) in Hyws. subst y.
    rewrite length_concat_sum, (sum_lengths_const _ _ Hwl), Hxn.
    apply (f_equal (fun k => k * bs)). exact Hn.
Qed.

Lemma ecb_run_keeps_length_witness :
  crypt_engine.run (L := toy_copy) true padding_t.none [] [] encrypt_mode b4 = Ok b4 /\
  length b4 = length b4.
Proof.
  split; [reflexivity |].
  exact (ecb_run_keeps_length toy_copy true padding_t.none [] [] encrypt_mode b4 b4
           (toy_info true) toy_ecb_block_exact eq_refl eq_refl eq_refl).
Defined.
